(** * Quack: a shallow embedding of the target model, the fingerprinting
    engine, the archiver, the cache backends and the spec post-processor.

    Sources: [quack/models/target.py], [quack/models/dependency.py],
    [quack/spec.py], [quack/cache.py], [quack/cli.py], [quack/db.py],
    [quack/utils/archiver.py]. *)

From Stdlib Require Import Ascii String ZArith Sorting.Sorted.
From stdpp Require Import base gmap strings list sets.

(* ===================================================================== *)
(** ** Python's [repr] of a [str] and of a [list[str]]                    *)
(* ===================================================================== *)

Module PyRepr.

Definition sq : ascii := "'"%char.
Definition dq : ascii := Ascii.ascii_of_nat 34.
Definition bs : ascii := "\"%char.

(** [c in s] *)
Fixpoint has_char (c : ascii) (s : string) : bool :=
  match s with
  | EmptyString => false
  | String c' s' => Ascii.eqb c c' || has_char c s'
  end.

Definition hex_digit (n : nat) : ascii :=
  match n with
  | 0 => "0" | 1 => "1" | 2 => "2" | 3 => "3" | 4 => "4" | 5 => "5"
  | 6 => "6" | 7 => "7" | 8 => "8" | 9 => "9" | 10 => "a" | 11 => "b"
  | 12 => "c" | 13 => "d" | 14 => "e" | _ => "f"
  end%char.

(** One character of [str.__repr__] (ASCII code points): backslash and
    the chosen quote are escaped, [\t \n \r] get their short escapes,
    other control characters and DEL are written [\xhh]. *)
Definition escape_char (quote : ascii) (c : ascii) : string :=
  let n := nat_of_ascii c in
  if Ascii.eqb c bs then String bs (String bs EmptyString)
  else if Ascii.eqb c quote then String bs (String quote EmptyString)
  else if Nat.eqb n 9 then "\t"
  else if Nat.eqb n 10 then "\n"
  else if Nat.eqb n 13 then "\r"
  else if (n <? 32) || Nat.eqb n 127 then
    String bs (String "x" (String (hex_digit (n / 16))
                                  (String (hex_digit (n mod 16)) EmptyString)))
  else String c EmptyString.

Fixpoint escape (quote : ascii) (s : string) : string :=
  match s with
  | EmptyString => EmptyString
  | String c s' => escape_char quote c +:+ escape quote s'
  end.

(** [repr(s)]: single quotes, unless [s] holds a single quote and no
    double quote. *)
Definition repr_str (s : string) : string :=
  let quote := if has_char sq s && negb (has_char dq s) then dq else sq in
  String quote (escape quote s +:+ String quote EmptyString).

(** [repr(xs)] for a list of strings: ["[" + ", ".join(map(repr, xs)) + "]"]. *)
Definition repr_list (xs : list string) : string :=
  "[" +:+ String.concat ", " (map repr_str xs) +:+ "]".

End PyRepr.

(* ===================================================================== *)
(** ** Targets (models/target.py)                                          *)
(* ===================================================================== *)

Module Target.

(** The part of a [Target] object the properties below read: its name, its
    (memoised or assigned) [checksum_value], and the names of its
    [target]-kind dependencies, used by [prepare_deps]. *)
Record target := mk_target {
  name : string;
  checksum_value : string;
  target_deps : list string
}.

(** [cache_path] = [f"{name}/{checksum[:2]}/{checksum[2:]}"]. *)
Definition cache_path (t : target) : string :=
  let c := checksum_value t in
  name t +:+ "/" +:+ substring 0 2 c +:+ "/" +:+ substring 2 (String.length c - 2) c.

(** [cache_archive_filename] = [f"{self.name}.tar.gz"]. *)
Definition cache_archive_filename (t : target) : string :=
  name t +:+ ".tar.gz".

End Target.

(* ===================================================================== *)
(** ** Target fingerprint (Target.compute_checksum)                       *)
(* ===================================================================== *)

Module Fingerprint.
Import PyRepr.

Section WithHash.
(** [hashlib.sha256(x.encode("utf-8")).hexdigest()] *)
Variable sha256_hex : string -> string.
(** A dependency object and its memoised [checksum_value]. *)
Variable dependency : Type.
Variable dep_checksum_value : dependency -> string.

(** [hash_tuple = [dep.checksum_value for dep in self.dependencies]];
    [sha256(repr(hash_tuple))]. *)
Definition compute_checksum (dependencies : list dependency) : string :=
  let hash_tuple := map dep_checksum_value dependencies in
  sha256_hex (repr_list hash_tuple).
End WithHash.

(** Lowercase hexadecimal strings, the shape of every [hexdigest()]. *)
Definition hex_chars : string := "0123456789abcdef".
Definition is_hex_char (c : ascii) : bool := has_char c hex_chars.
Fixpoint is_hex (s : string) : bool :=
  match s with
  | EmptyString => true
  | String c s' => is_hex_char c && is_hex s'
  end.

(** The rendering of a list of quote-free strings after its opening
    bracket. *)
Fixpoint rendered_tail (xs : list string) : string :=
  match xs with
  | [] => "]"
  | x :: xs' =>
      String sq (x +:+ String sq
        (match xs' with
         | [] => "]"
         | _ :: _ => ", " +:+ rendered_tail xs'
         end))
  end.

End Fingerprint.

(* ===================================================================== *)
(** ** Target execution (Target.execute, Target.get_by_job, cli.execute_target) *)
(* ===================================================================== *)

Module Engine.
Import Target.

Inductive TargetExecutionMode := NORMAL | DEPS_ONLY | LOAD_ONLY.

(** The classes of [TargetCacheBackendTypeMap]. *)
Inductive backend_type := Raw | Local | OSS | Dev | Serve.

(** [TargetCacheBackendTypeOSS.get_commit_metadata_path] for the CI tier
    ([.quack-cache/<app_name>]): the commit-index object the OSS backend
    uploads after a save when [save_for_load] is set. *)
Definition commit_metadata_path (app_name commit_sha target_name : string) : string :=
  ".quack-cache/" +:+ app_name +:+ "/_commits/" +:+ commit_sha +:+ "/"
    +:+ target_name +:+ ".json".

Definition is_serve (b : backend_type) : bool :=
  match b with Serve => true | _ => false end.

(** A cache entry is identified by the target name and its fingerprint. *)
Definition key (t : target) : string * string := (name t, checksum_value t).

(** Observable steps of an execution. *)
Inductive event :=
| EvBuild (k : string * string)   (** [self.operations.build.execute()] *)
| EvSave (k : string * string)    (** [cache.save()] *)
| EvLoad (k : string * string).   (** [cache.load()] *)

Record world := mk_world {
  entries : gset (string * string);  (** cache entries the backend reports as existing *)
  trace : list event
}.

Inductive exn := KeyError | CalledProcessError | AssertionError.

Inductive outcome :=
| Ok (w : world)
| Exit (code : Z) (w : world)        (** [sys.exit(code)] *)
| Raised (e : exn) (w : world)       (** an exception propagates *)
| OutOfFuel.                         (** the recursion did not finish *)

Section Execute.
(** [Spec.get().targets] *)
Variable targets : gmap string target.
Variable cache_backend : backend_type.
(** Whether [operations.build.execute()] returns normally. *)
Variable build_succeeds : string -> bool.
(** Whether [cache.save()] returns normally ([false]: it raises [OSSError]). *)
Variable save_succeeds : string -> bool.

(** [TargetCache.hit] = [backend.exists(target)]; the Raw backend answers
    [False]. *)
Definition cache_hit (t : target) (w : world) : bool :=
  match cache_backend with
  | Raw => false
  | _ => bool_decide (key t ∈ entries w)
  end.

Definition cache_load (t : target) (w : world) : world :=
  mk_world (entries w) (trace w ++ [EvLoad (key t)]).

Definition cache_save (t : target) (w : world) : world :=
  mk_world (match cache_backend with
            | Raw => entries w
            | _ => {[key t]} ∪ entries w
            end)
           (trace w ++ [EvSave (key t)]).

Definition build (t : target) (w : world) : world :=
  mk_world (entries w) (trace w ++ [EvBuild (key t)]).

(** [Target.execute]; [prepare_deps] runs every [target]-kind dependency
    with the default mode [NORMAL]. *)
Fixpoint execute (fuel : nat) (mode : TargetExecutionMode) (t : target)
    (w : world) : outcome :=
  match fuel with
  | O => OutOfFuel
  | S fuel' =>
      let prepare_deps :=
        fix go (ds : list string) (w : world) : outcome :=
          match ds with
          | [] => Ok w
          | d :: ds' =>
              match targets !! d with
              | None => Raised KeyError w
              | Some td =>
                  match execute fuel' NORMAL td w with
                  | Ok w' => go ds' w'
                  | o => o
                  end
              end
          end in
      let cache_exists := cache_hit t w in
      match mode with
      | DEPS_ONLY => prepare_deps (target_deps t) w
      | LOAD_ONLY =>
          if cache_exists then Ok (cache_load t w) else Exit 1 w
      | NORMAL =>
          let r1 := if is_serve cache_backend
                    then prepare_deps (target_deps t) w else Ok w in
          match r1 with
          | Ok w1 =>
              let r2 :=
                if cache_exists then Ok w1
                else
                  match (if is_serve cache_backend then Ok w1
                         else prepare_deps (target_deps t) w1) with
                  | Ok w2 =>
                      if build_succeeds (name t) then Ok (build t w2)
                      else Raised CalledProcessError w2
                  | o => o
                  end in
              match r2 with
              | Ok w3 =>
                  if cache_exists then Ok (cache_load t w3)
                  else if save_succeeds (name t) then Ok (cache_save t w3)
                  else Exit 1 w3
              | o => o
              end
          | o => o
          end
      end
  end.

(** A row of the [quack_target_checksum] table ([db.TargetChecksum]). *)
Record TargetChecksum := mk_checksum_row {
  row_app_name : string;
  row_commit_sha : string;
  row_mr_iid : Z;
  row_pipeline_id : Z;
  row_job_name : string;
  row_target_name : string;
  row_checksum : string
}.

(** [DB.query_checksum]: the first row with the four key columns, as
    [cursor.fetchone()] returns it. *)
Definition query_checksum (rows : list TargetChecksum)
    (app_name commit_sha job_name target_name : string)
    : option TargetChecksum :=
  List.find (fun r =>
    String.eqb (row_app_name r) app_name && String.eqb (row_commit_sha r) commit_sha &&
    String.eqb (row_job_name r) job_name && String.eqb (row_target_name r) target_name)
    rows.

Inductive resolved := Found (t : target) | DBNotFound | NameNotFound | NoDB.

(** [Target.get_by_name]: a missing name ends in [sys.exit(1)]. *)
Definition get_by_name (target_name : string) : resolved :=
  match targets !! target_name with
  | Some t => Found t
  | None => NameNotFound
  end.

(** [Target.get_by_job]: the checksum recorded for the commit, job and
    target overrides [checksum_value]. *)
Definition get_by_job (db : list TargetChecksum)
    (commit_sha app_name job_name target_name : string) : resolved :=
  match query_checksum db app_name commit_sha job_name target_name with
  | None => DBNotFound
  | Some row =>
      match get_by_name target_name with
      | Found t => Found (mk_target (name t) (row_checksum row) (target_deps t))
      | r => r
      end
  end.

(** The fields of [CIEnvironment] that [execute_target] reads. *)
Record CIEnvironment := mk_ci {
  is_ci : bool;
  is_merge_group : bool;
  commit_sha : string;
  ci_job_name : string;
  pr_id : Z;
  pipeline_id : Z
}.

(** [cli.execute_target]; besides the outcome, the rows passed to
    [db.record_checksum]. *)
Definition execute_target (fuel : nat) (app_name target_name : string)
    (mode : TargetExecutionMode) (db : option (list TargetChecksum))
    (ci : CIEnvironment) (job_name : string) (w : world)
    : outcome * list TargetChecksum :=
  let r :=
    match mode with
    | LOAD_ONLY =>
        match db with
        | None => NoDB
        | Some rows => get_by_job rows (commit_sha ci) app_name job_name target_name
        end
    | _ => get_by_name target_name
    end in
  match r with
  | NoDB => (Raised AssertionError w, [])
  | DBNotFound | NameNotFound => (Exit 1 w, [])
  | Found t =>
      match execute fuel mode t w with
      | Raised CalledProcessError w' => (Exit 1 w', [])
      | Ok w' =>
          if bool_decide (is_Some db) && is_ci ci && is_merge_group ci then
            (Ok w', [mk_checksum_row app_name (commit_sha ci) (pr_id ci)
                       (pipeline_id ci) (ci_job_name ci) (name t) (checksum_value t)])
          else (Ok w', [])
      | o => (o, [])
      end
  end.

End Execute.
End Engine.

(* ===================================================================== *)
(** ** Archiver (utils/archiver.py)                                        *)
(* ===================================================================== *)

Module Archiver.

(** A file: its content and its modification time. *)
Abbreviation fs := (gmap string (string * Z)).

(** [tarfile] stores a member name without its leading slashes. *)
Fixpoint arcname (p : string) : string :=
  match p with
  | String "/" p' => arcname p'
  | _ => p
  end.

(** [Path(dest) / rel] for a relative [rel]. *)
Definition dest_join (dest rel : string) : string :=
  if String.eqb dest "." then rel
  else if String.eqb (substring (String.length dest - 1) 1 dest) "/" then dest +:+ rel
  else dest +:+ "/" +:+ rel.

(** [tar.add(p)] walks a directory in [sorted(os.listdir(...))] order,
    one level at a time: a pre-order that compares paths component by
    component, that is, character by character with the separator below
    every other character. *)
Definition char_rank (c : ascii) : nat :=
  if Ascii.eqb c "/" then 0 else S (nat_of_ascii c).

Fixpoint tar_ltb (a b : string) : bool :=
  match a, b with
  | _, EmptyString => false
  | EmptyString, String _ _ => true
  | String c a', String d b' =>
      if Nat.ltb (char_rank c) (char_rank d) then true
      else if Nat.eqb (char_rank c) (char_rank d) then tar_ltb a' b'
      else false
  end.

Fixpoint insert_member (x : string * string) (l : list (string * string))
    : list (string * string) :=
  match l with
  | [] => [x]
  | y :: l' => if tar_ltb y.1 x.1 then y :: insert_member x l' else x :: l
  end.

Definition sort_members (l : list (string * string)) : list (string * string) :=
  foldr insert_member [] l.

(** [k] lies strictly below the directory [p]. Paths are compared as
    written: the file system keys files by the paths the outputs use. *)
Definition under (p k : string) : bool :=
  if String.eqb p "" then false
  else
    let pre := if String.eqb (substring (String.length p - 1) 1 p) "/" then p
               else p +:+ "/" in
    String.prefix pre k && negb (String.eqb pre k).

(** [os.path.isdir(p)]: a directory of [dirs] (which may be empty) or
    the parent of some file. *)
Definition is_dir {A} (files : gmap string A) (dirs : gset string) (p : string) : bool :=
  bool_decide (p ∈ dirs) || existsb (under p) (map fst (map_to_list files)).

(** [tar.add(p, arcname=p)]: a regular file gives one member, a
    directory the files below it in walk order (its directory members
    hold no content, and [extract] copies regular files only); a missing
    path raises. *)
Definition tar_add {A} (content : A -> string) (files : gmap string A)
    (dirs : gset string) (p : string) : option (list (string * string)) :=
  match files !! p with
  | Some x => Some [(arcname p, content x)]
  | None =>
      if is_dir files dirs p then
        Some (map (fun '(k, c) => (arcname k, c))
               (sort_members (map (fun '(k, x) => (k, content x))
                  (List.filter (fun kx => under p kx.1) (map_to_list files)))))
      else None
  end.


(** [tar.extractall(temp_dir)]: a later member with the same name
    overwrites an earlier one. *)
Definition temp_dir (members : list (string * string)) : gmap string string :=
  foldl (fun m '(n, c) => <[n := c]> m) ∅ members.

Section WithHash.
(** [hashlib.sha256(data).hexdigest()] *)
Variable sha256_hex : string -> string.
(** [datetime.now()] as seen by [os.utime(dest_file, None)]. *)
Variable now : Z.

(** One file of [_sync_with_checksum]: copy unless the destination
    exists with the same SHA-256; a copied file gets mtime [now]. *)
Definition sync_file (dest : string) (files : fs) (entry : string * string) : fs :=
  let '(rel, c) := entry in
  let dest_file := dest_join dest rel in
  let should_copy :=
    match files !! dest_file with
    | Some (c', _) => negb (String.eqb (sha256_hex c) (sha256_hex c'))
    | None => true
    end in
  if should_copy then <[dest_file := (c, now)]> files else files.

Definition sync_with_checksum (src : gmap string string) (dest : string) (files : fs) : fs :=
  foldl (sync_file dest) files (map_to_list src).

(** [Archiver.extract(archive_path, dest_path)] *)
Definition extract (members : list (string * string)) (dest : string) (files : fs) : fs :=
  sync_with_checksum (temp_dir members) dest files.
End WithHash.

End Archiver.

(* ===================================================================== *)
(** ** Cache backends (cache.py)                                           *)
(* ===================================================================== *)

Module Cache.
Import Target.

(** The local filesystem (regular files and their contents), the
    bucket behind [OSSClient] (object keys and their contents) and the
    directories of the filesystem that may hold no file. *)
Record store := mk_store {
  files : gmap string string;
  objects : gmap string string;
  dirs : gset string
}.

Definition ends_with_sep (a : string) : bool :=
  match a with
  | EmptyString => true
  | _ => String.eqb (substring (String.length a - 1) 1 a) "/"
  end.

(** [os.path.join(a, b)] on POSIX. *)
Definition path_join (a b : string) : string :=
  match b with
  | String "/" _ => b
  | _ => if ends_with_sep a then a +:+ b else a +:+ "/" +:+ b
  end.

(** [Raw], [Local], [OSS] (the cloud tier) and [Dev]. *)
Inductive backend := BRaw | BLocal | BOSS | BDev.

#[global] Instance backend_eq_dec : EqDecision backend.
Proof. solve_decision. Defined.

Section Backends.
(** [quack.consts.CACHE_METADATA_FILENAME] *)
Variable CACHE_METADATA_FILENAME : string.
(** [xdg_cache_home()] *)
Variable xdg_cache_home : string.
Variable app_name : string.
(** [OSSClient._base_path], taken from [config.oss.prefix]. *)
Variable oss_base_path : string.
(** [CIEnvironment().commit_sha] and [config.save_for_load]. *)
Variable commit_sha : string.
Variable save_for_load : bool.
(** The bytes [Archiver.archive] writes for the given (member name,
    content) list: a zstd-compressed tar. *)
Variable zstd_tar : list (string * string) -> string.
(** The JSON [Metadata.generate] writes, from the archive bytes, the
    target checksum and the commit SHA. *)
Variable metadata_json : string -> string -> string -> string.

(** *** [TargetCacheBackendTypeLocal] *)
Definition local_base_path : string :=
  path_join (path_join xdg_cache_home "quack") app_name.
Definition local_cache_path (t : target) : string :=
  path_join local_base_path (cache_path t).
Definition local_archive_path (t : target) : string :=
  path_join (local_cache_path t) (cache_archive_filename t).
Definition local_metadata_path (t : target) : string :=
  path_join (local_cache_path t) CACHE_METADATA_FILENAME.

Definition local_exists (st : store) (t : target) : bool :=
  bool_decide (is_Some (files st !! local_metadata_path t)).

(** The members [Archiver.archive] packs: [tar.add(path)] for every
    output path, a file or a directory; a missing path raises. *)
Definition read_outputs (st : store) (paths : list string)
    : option (list (string * string)) :=
  ms ← mapM (Archiver.tar_add (fun c => c) (files st) (dirs st)) paths; Some (concat ms).


(** [TargetCacheBackendTypeLocal.save]: write the archive, then the
    metadata next to it (the directories [os.makedirs] creates hold
    these files). *)
Definition local_save (st : store) (t : target) (outputs : list string)
    : option store :=
  pcs ← read_outputs st outputs;
  let a := zstd_tar pcs in
  let fs1 := <[local_archive_path t := a]> (files st) in
  let m := metadata_json a (checksum_value t) commit_sha in
  Some (mk_store (<[local_metadata_path t := m]> fs1) (objects st) (dirs st)).

(** *** [TargetCacheBackendTypeOSS] with base path [cb] *)
Definition oss_cache_path (cb : string) (t : target) : string :=
  cb +:+ "/" +:+ cache_path t.
Definition oss_archive_path (cb : string) (t : target) : string :=
  oss_cache_path cb t +:+ "/" +:+ cache_archive_filename t.
Definition oss_metadata_path (cb : string) (t : target) : string :=
  oss_cache_path cb t +:+ "/" +:+ CACHE_METADATA_FILENAME.
Definition commits_path (cb : string) : string :=
  if String.eqb commit_sha "" then ""
  else path_join (path_join cb "_commits") commit_sha.
Definition commit_metadata_path (cb : string) (t : target) : string :=
  path_join (commits_path cb) (name t +:+ ".json").

(** [OSSClient._get_object_key] *)
Definition object_key (path : string) : string :=
  if String.eqb oss_base_path "" then path else oss_base_path +:+ "/" +:+ path.

Definition oss_client_exists (st : store) (path : string) : bool :=
  bool_decide (is_Some (objects st !! object_key path)).

(** [OSSClient.upload] of a regular file; a missing file raises [OSSError]. *)
Definition oss_client_upload (st : store) (path dest : string) : option store :=
  c ← files st !! path;
  Some (mk_store (files st) (<[object_key dest := c]> (objects st)) (dirs st)).

Definition oss_exists (cb : string) (st : store) (t : target) : bool :=
  oss_client_exists st (oss_metadata_path cb t).

(** [TargetCacheBackendTypeOSS.save]: local save, upload the archive,
    upload the metadata, and the commit index when configured. *)
Definition oss_save (cb : string) (st : store) (t : target) (outputs : list string)
    : option store :=
  st1 ← local_save st t outputs;
  st2 ← oss_client_upload st1 (local_archive_path t) (oss_archive_path cb t);
  st3 ← oss_client_upload st2 (local_metadata_path t) (oss_metadata_path cb t);
  if save_for_load && negb (String.eqb (commits_path cb) "") then
    oss_client_upload st3 (local_metadata_path t) (commit_metadata_path cb t)
  else Some st3.

Definition ci_base_path : string := path_join ".quack-cache" app_name.
Definition dev_base_path : string := path_join ".quack-cache-dev" app_name.

(** [exists] and [save] of each backend; [Dev] first asks the CI tier. *)
Definition backend_exists (b : backend) (st : store) (t : target) : bool :=
  match b with
  | BRaw => false
  | BLocal => local_exists st t
  | BOSS => oss_exists ci_base_path st t
  | BDev => oss_exists ci_base_path st t || oss_exists dev_base_path st t
  end.

Definition backend_save (b : backend) (st : store) (t : target) (outputs : list string)
    : option store :=
  match b with
  | BRaw => Some st
  | BLocal => local_save st t outputs
  | BOSS => oss_save ci_base_path st t outputs
  | BDev => oss_save dev_base_path st t outputs
  end.
End Backends.
End Cache.


(* ===================================================================== *)
(** ** Source dependencies: [DependencyTypeSource]                         *)
(* ===================================================================== *)

Module Dependency.
Import PyRepr.

(** Python's [<] on [str]: code points compared left to right. *)
Fixpoint str_ltb (a b : string) : bool :=
  match a, b with
  | EmptyString, EmptyString => false
  | EmptyString, String _ _ => true
  | String _ _, EmptyString => false
  | String c a', String d b' =>
      if Nat.ltb (nat_of_ascii c) (nat_of_ascii d) then true
      else if Nat.eqb (nat_of_ascii c) (nat_of_ascii d) then str_ltb a' b'
      else false
  end.

Fixpoint insert_sorted (x : string) (l : list string) : list string :=
  match l with
  | [] => [x]
  | y :: l' => if str_ltb x y then x :: l else y :: insert_sorted x l'
  end.

(** [sorted(xs)] *)
Definition sorted (xs : list string) : list string := foldr insert_sorted [] xs.

Section Matching.
(** [re.compile(p).match(f) is not None] *)
Variable re_match : string -> string -> bool.
(** [os.path.exists(f)] *)
Variable path_exists : string -> bool.
(** [generate_sha256sum(f)] and [hashlib.sha256(...).hexdigest()] *)
Variable file_sha256 : string -> string.
Variable sha256_hex : string -> string.

(** The first pattern of [ps] that matches [f] (the [break]). *)
Fixpoint first_match (ps : list string) (f : string) : option string :=
  match ps with
  | [] => None
  | p :: ps' => if re_match p f then Some p else first_match ps' f
  end.

(** [matched_counts[p.pattern] += 1] on a [defaultdict(int)] *)
Definition bump (counts : gmap string nat) (p : string) : gmap string nat :=
  <[p := default 0 (counts !! p) + 1]> counts.

(** One iteration of [for f in tracked_files]. *)
Definition scan_file (paths excludes : list string)
    (st : gmap string nat * gset string) (f : string) : gmap string nat * gset string :=
  let '(counts, matched_files) := st in
  if negb (path_exists f) then st else
  let '(counts, matched) :=
    match first_match paths f with
    | Some p => (bump counts p, true)
    | None => (counts, false)
    end in
  let '(counts, matched) :=
    match first_match excludes f with
    | Some p => (bump counts p, false)
    | None => (counts, matched)
    end in
  (counts, if matched then {[ f ]} ∪ matched_files else matched_files).

(** [DependencyTypeSource.get_matched_files]: [inl p] is the
    [SpecError] raised for pattern [p], [inr files] the sorted list. *)
Definition get_matched_files (paths excludes tracked_files : list string)
    : string + list string :=
  let '(counts, matched_files) := foldl (scan_file paths excludes) (∅, ∅) tracked_files in
  match List.find (fun p => Nat.eqb (default 0 (counts !! p)) 0) (paths ++ excludes) with
  | Some p => inl p
  | None => inr (sorted (elements matched_files))
  end.

(** [repr] of a [list[tuple[str, str]]] *)
Definition repr_pairs (l : list (string * string)) : string :=
  "[" +:+ String.concat ", "
    (map (fun '(a, b) => "(" +:+ repr_str a +:+ ", " +:+ repr_str b +:+ ")") l) +:+ "]".

(** [DependencyTypeSource.compute_checksum] *)
Definition compute_checksum (paths excludes tracked_files : list string) : string + string :=
  match get_matched_files paths excludes tracked_files with
  | inl p => inl p
  | inr files => inr (sha256_hex (repr_pairs (map (fun f => (f, file_sha256 f)) files)))
  end.
End Matching.

End Dependency.

(* ===================================================================== *)
(** ** Spec post-processing of global dependencies (Spec.post_process)    *)
(* ===================================================================== *)

Module PostProcess.

(** Modelled from the spec: the [Dependency] model that [spec.py] imports
    from [quack.models.dependency] is missing from the sources. As
    [post_process] uses it, a dependency has a textual [type]
    discriminator, a [name] (for [global] and [target] references), a
    [propagate] flag and its type-specific fields, here [dep_body].
    Pydantic models compare equal field by field. *)
Record dep := mk_dep {
  dep_type : string;
  dep_name : string;
  dep_propagate : bool;
  dep_body : string
}.

#[global] Instance dep_eq_dec : EqDecision dep.
Proof. solve_decision. Defined.

(** [self.global_dependencies]: a dict in declaration order. *)
Definition globals := list (string * dep).

Fixpoint global_lookup (gd : globals) (n : string) : option dep :=
  match gd with
  | [] => None
  | (k, d) :: gd' => if String.eqb k n then Some d else global_lookup gd' n
  end.

(** [[dep for dep in self.global_dependencies.values() if dep.propagate]] *)
Definition global_deps_to_propagate (gd : globals) : list dep :=
  List.filter dep_propagate (map snd gd).

(** [list.index(x)] *)
Fixpoint index_of (x : dep) (l : list dep) : option nat :=
  match l with
  | [] => None
  | y :: l' => if decide (y = x) then Some 0 else S <$> index_of x l'
  end.

(** [for dep in target.dependencies: ...] over the live list: the
    element at position [i] is read after the replacements made so far;
    [None] is the [ValueError] of an unknown global name. *)
Fixpoint resolve_loop (gd : globals) (n i : nat) (cur : list dep) : option (list dep) :=
  match n with
  | 0 => Some cur
  | S n' =>
      match cur !! i with
      | None => Some cur
      | Some d =>
          if String.eqb (dep_type d) "global" then
            match global_lookup gd (dep_name d) with
            | None => None
            | Some g =>
                match index_of d cur with
                | Some j => resolve_loop gd n' (S i) (<[j := g]> cur)
                | None => None
                end
            end
          else resolve_loop gd n' (S i) cur
      end
  end.

(** One target of [Spec.post_process]:
    [target.dependencies[:0] = global_deps_to_propagate], then the loop. *)
Definition post_process_deps (gd : globals) (deps : list dep) : option (list dep) :=
  let l := global_deps_to_propagate gd ++ deps in
  resolve_loop gd (length l) 0 l.

(** What the loop makes of one dependency. *)
Definition resolve_one (gd : globals) (d : dep) : option dep :=
  if String.eqb (dep_type d) "global" then global_lookup gd (dep_name d) else Some d.

End PostProcess.

(* ===================================================================== *)
(** ** Output inheritance (get_outputs in Spec.post_process)              *)
(* ===================================================================== *)

Module Outputs.

(** What [get_outputs] reads of a target: [outputs.inherit] and the
    [(type, name)] of each dependency. *)
Record tgt := mk_tgt {
  t_inherit : bool;
  t_deps : list (string * string)
}.

(** The [outputs.paths] set object of every target, by name. *)
Abbreviation store := (gmap string (gset string)).

(** The store and the names [@cache] has a result for. The cached result
    of [get_outputs(n)] is the very set object [targets[n].outputs.paths]
    (no copy is made), so a cache hit returns that set's current
    contents. *)
Abbreviation state := (store * gset string)%type.

Definition paths_of (paths : store) (n : string) : gset string := default ∅ (paths !! n).

(** [for dep in target.dependencies: if dep.type == "target":
       outputs.update(get_outputs(dep.name))], with [outputs] the set
    object of target [x]; [get] is the recursive call. *)
Definition update_outputs (get : string -> state -> option (gset string * state)) (x : string) :
    list (string * string) -> state -> option state :=
  fix go deps st :=
    match deps with
    | [] => Some st
    | (ty, n) :: deps' =>
        if String.eqb ty "target" then
          match get n st with
          | None => None
          | Some (s, (paths1, memo1)) =>
              go deps' (<[x := paths_of paths1 x ∪ s]> paths1, memo1)
          end
        else go deps' st
    end.

Section GetOutputs.
(** [targets = self.targets] *)
Variable targets : gmap string tgt.

(** The [@cache]d [get_outputs(target_name)]; [None] is a [KeyError]
    for an unknown target or, when [fuel] runs out, the
    [RecursionError] of a dependency cycle. *)
Fixpoint get_outputs (fuel : nat) (x : string) (st : state) : option (gset string * state) :=
  match fuel with
  | 0 => None
  | S fuel' =>
      let '(paths, memo) := st in
      if decide (x ∈ memo) then Some (paths_of paths x, st) else
      match targets !! x with
      | None => None
      | Some t =>
          match (if t_inherit t then update_outputs (get_outputs fuel') x (t_deps t) st
                 else Some st) with
          | None => None
          | Some (paths2, memo2) => Some (paths_of paths2 x, (paths2, {[x]} ∪ memo2))
          end
      end
  end.

(** [for target in targets.values(): if target.outputs.inherit:
       target.outputs.paths = get_outputs(target.name)] over the names
    in the dict's order. *)
Fixpoint finalize (fuel : nat) (names : list string) (st : state) : option store :=
  match names with
  | [] => Some st.1
  | x :: names' =>
      match targets !! x with
      | None => None
      | Some t =>
          if t_inherit t then
            match get_outputs fuel x st with
            | None => None
            | Some (s, (paths, memo)) => finalize fuel names' (<[x := s]> paths, memo)
            end
          else finalize fuel names' st
      end
  end.

(** The output part of [Spec.post_process]: [declared] holds each
    target's [outputs.paths] when post-processing starts. *)
Definition post_process_outputs (fuel : nat) (names : list string) (declared : store)
    : option store :=
  finalize fuel names (declared, ∅).
End GetOutputs.

End Outputs.

(* ===================================================================== *)
(** ** Dependency resolution in Target.__init__                           *)
(* ===================================================================== *)

Module TargetInit.

(** A dependency as the dict read from the spec: its ["type"], its
    ["name"] when the key is present, and the remaining keys. Python
    dicts are equal when all their keys are. *)
Record ddict := mk_ddict {
  d_type : string;
  d_name : option string;
  d_body : string
}.

#[global] Instance ddict_eq_dec : EqDecision ddict.
Proof. solve_decision. Defined.

(** The four dependency classes of [quack.models.dependency]. *)
Inductive dependency :=
| DepCommand (d : ddict)
| DepSource (d : ddict)
| DepTarget (d : ddict)
| DepVariable (d : ddict).

Inductive exn := SpecError | ValueError.

(** [{"type": "global", "name": "source:quack"}] *)
Definition source_quack : ddict := mk_ddict "global" (Some "source:quack") "".

(** [list.index(x)]; [None] is a [ValueError]. *)
Fixpoint index_of (x : ddict) (l : list ddict) : option nat :=
  match l with
  | [] => None
  | y :: l' => if decide (y = x) then Some 0 else S <$> index_of x l'
  end.

(** [list.remove(x)]: drop the first element equal to [x]. *)
Fixpoint remove_first (x : ddict) (l : list ddict) : list ddict :=
  match l with
  | [] => []
  | y :: l' => if decide (y = x) then l' else y :: remove_first x l'
  end.

(** [list.insert(i, x)] *)
Definition insert_at (i : nat) (x : ddict) (l : list ddict) : list ddict :=
  take i l ++ x :: drop i l.

(** [for dep in deps.copy(): ...]: [todo] is the copy, [cur] the live
    list; an unknown global name (or a global entry without a name) is
    the [KeyError] turned into [SpecError]. *)
Fixpoint resolve_globals (global_dependencies : gmap string ddict)
    (todo cur : list ddict) : exn + list ddict :=
  match todo with
  | [] => inr cur
  | dep :: todo' =>
      match index_of dep cur with
      | None => inl ValueError
      | Some index =>
          if String.eqb (d_type dep) "global" then
            let cur1 := remove_first dep cur in
            match d_name dep ≫= fun n => global_dependencies !! n with
            | None => inl SpecError
            | Some g => resolve_globals global_dependencies todo' (insert_at index g cur1)
            end
          else resolve_globals global_dependencies todo' cur
      end
  end.

(** The second loop of [Target.__init__] on one dict. *)
Definition convert (d : ddict) : exn + dependency :=
  if String.eqb (d_type d) "command" then inr (DepCommand d)
  else if String.eqb (d_type d) "source" then inr (DepSource d)
  else if String.eqb (d_type d) "target" then inr (DepTarget d)
  else if String.eqb (d_type d) "variable" then inr (DepVariable d)
  else inl SpecError.

Fixpoint convert_all (l : list ddict) : exn + list dependency :=
  match l with
  | [] => inr []
  | d :: l' =>
      match convert d with
      | inl e => inl e
      | inr x =>
          match convert_all l' with
          | inl e => inl e
          | inr xs => inr (x :: xs)
          end
      end
  end.

(** The dependency part of [Target.__init__]: [declared] is
    [data.get("dependencies", [])] and [global_dependencies] is
    [spec.global_dependencies]. *)
Definition target_dependencies (global_dependencies : gmap string ddict)
    (declared : list ddict) : exn + list dependency :=
  let deps := source_quack :: declared in
  match resolve_globals global_dependencies deps deps with
  | inl e => inl e
  | inr deps' => convert_all deps'
  end.

End TargetInit.

(* ===================================================================== *)
(** ** Target validation (Target.validate)                                 *)
(* ===================================================================== *)

Module TargetValidate.

(** The character class [[a-z0-9\-:]]. *)
Definition name_char (c : ascii) : bool :=
  let n := nat_of_ascii c in
  ((97 <=? n) && (n <=? 122)) || ((48 <=? n) && (n <=? 57)) || Nat.eqb n 45 || Nat.eqb n 58.

(** What follows the first class character in [^[a-z0-9\-:]+$]: more
    class characters, then the end of the string or a final newline
    (Python's [$] also matches just before a trailing newline). *)
Fixpoint name_tail (s : string) : bool :=
  match s with
  | EmptyString => true
  | String c s' =>
      (Nat.eqb (nat_of_ascii c) 10 && String.eqb s' "") || (name_char c && name_tail s')
  end.

(** [re.match(r"^[a-z0-9\-:]+$", name) is not None] *)
Definition name_matches (s : string) : bool :=
  match s with
  | EmptyString => false
  | String c s' => name_char c && name_tail s'
  end.

(** The [SpecError]s of [Target.validate], in the order they are checked. *)
Inductive failure := InvalidPart | InvalidName | NameTooLong | DescriptionTooLong.

(** [Target.validate]; [parts_ok] is whether the validation of the
    dependencies, the outputs and the build command returns normally. *)
Definition validate (parts_ok : bool) (name description : string) : option failure :=
  if negb parts_ok then Some InvalidPart
  else if negb (name_matches name) then Some InvalidName
  else if 48 <? String.length name then Some NameTooLong
  else if 255 <? String.length description then Some DescriptionTooLong
  else None.

End TargetValidate.

(* ===================================================================== *)
(** ** Environment variable dependencies: [DependencyTypeVariable]        *)
(* ===================================================================== *)

Module VariableDep.
Import Dependency.

(** [sorted(xs, key=lambda x: x[0])], a stable sort: [x] goes before the
    first element whose key is not smaller than its own. *)
Fixpoint insert_by_key (x : string * string) (l : list (string * string))
    : list (string * string) :=
  match l with
  | [] => [x]
  | y :: l' => if str_ltb y.1 x.1 then y :: insert_by_key x l' else x :: l
  end.

Definition sort_by_key (l : list (string * string)) : list (string * string) :=
  foldr insert_by_key [] l.

Section Matching.
(** [re.compile(p).match(k) is not None] *)
Variable re_match : string -> string -> bool.
(** [hashlib.sha256(x.encode("utf-8")).hexdigest()] *)
Variable sha256_hex : string -> string.

(** The [matched] flag the two loops compute for a variable name [k]. *)
Definition variable_matched (names excludes : list string) (k : string) : bool :=
  let matched := match first_match re_match names k with Some _ => true | None => false end in
  match first_match re_match excludes k with Some _ => false | None => matched end.

(** [DependencyTypeVariable.get_matched_variables] over
    [os.environ.items()]. *)
Definition get_matched_variables (names excludes : list string)
    (environ : list (string * string)) : list (string * string) :=
  sort_by_key (List.filter (fun kv => variable_matched names excludes kv.1) environ).

(** [DependencyTypeVariable.compute_checksum] *)
Definition compute_checksum (names excludes : list string)
    (environ : list (string * string)) : string :=
  sha256_hex (repr_pairs (get_matched_variables names excludes environ)).
End Matching.

End VariableDep.

(* ===================================================================== *)
(** ** Spec registries (spec.py)                                           *)
(* ===================================================================== *)

Module SpecModel.
Import TargetInit.

Inductive exn := KeyError | ValueError.

(** The [names] loop of [Spec.validate_global_dependencies]: a missing
    ["name"] key raises [KeyError], a repeated name [ValueError]. *)
Fixpoint check_names (names : gset string) (v : list ddict) : option exn :=
  match v with
  | [] => None
  | dep :: v' =>
      match d_name dep with
      | None => Some KeyError
      | Some n => if decide (n ∈ names) then Some ValueError else check_names ({[n]} ∪ names) v'
      end
  end.

(** [{dep["name"]: dep for dep in v}], built once every entry has a name. *)
Definition by_name (v : list ddict) : gmap string ddict :=
  foldl (fun m dep => match d_name dep with Some n => <[n := dep]> m | None => m end) ∅ v.

(** [Spec.validate_global_dependencies] *)
Definition validate_global_dependencies (v : list ddict) : exn + gmap string ddict :=
  match check_names ∅ v with
  | Some e => inl e
  | None => inr (by_name v)
  end.

Section Registry.
Variable target script : Type.
Variable target_name : target -> string.
Variable script_name : script -> string.

(** [self.targets] and [self.scripts], keyed by name. *)
Record registry := mk_registry {
  targets : gmap string target;
  scripts : gmap string script
}.

(** [Spec.add_target]; [None] is the [ValueError] of a taken name. *)
Definition add_target (r : registry) (t : target) : option registry :=
  match targets r !! target_name t, scripts r !! target_name t with
  | None, None => Some (mk_registry (<[target_name t := t]> (targets r)) (scripts r))
  | _, _ => None
  end.

(** [Spec.add_script] *)
Definition add_script (r : registry) (s : script) : option registry :=
  match targets r !! script_name s, scripts r !! script_name s with
  | None, None => Some (mk_registry (targets r) (<[script_name s := s]> (scripts r)))
  | _, _ => None
  end.

Fixpoint add_targets (r : registry) (ts : list target) : option registry :=
  match ts with
  | [] => Some r
  | t :: ts' => r' ← add_target r t; add_targets r' ts'
  end.

Fixpoint add_scripts (r : registry) (ss : list script) : option registry :=
  match ss with
  | [] => Some r
  | s :: ss' => r' ← add_script r s; add_scripts r' ss'
  end.

(** The first loop of [Spec.post_process]: for each included spec, the
    [targets.values()] then the [scripts.values()]. *)
Fixpoint add_includes (r : registry) (include : list (list target * list script))
    : option registry :=
  match include with
  | [] => Some r
  | (ts, ss) :: include' =>
      r1 ← add_targets r ts; r2 ← add_scripts r1 ss; add_includes r2 include'
  end.
End Registry.

End SpecModel.

(* ===================================================================== *)
(** ** Parallel scripts (cli.execute_scripts_parallel)                     *)
(* ===================================================================== *)

Module Cli.

(** [sys.exit(1)] before any script starts, or the scripts submitted to
    the pool, in order. *)
Inductive parallel_outcome := ParallelExit | ParallelRun (script_names : list string).

(** [execute_scripts_parallel] up to the submission of the scripts;
    [scripts] and [targets] are the names of [spec.scripts] and
    [spec.targets]. *)
Definition execute_scripts_parallel (names : list string) (scripts targets : gset string)
    : parallel_outcome :=
  if Nat.eqb (length names) 1 then ParallelExit else
  let script_names := List.filter (fun n => bool_decide (n ∈ scripts)) names in
  let target_names := List.filter (fun n => bool_decide (n ∈ targets)) names in
  let other_names :=
    List.filter (fun n => bool_decide ((n ∉ scripts) /\ (n ∉ targets))) names in
  match other_names with
  | _ :: _ => ParallelExit
  | [] =>
      match target_names with
      | _ :: _ => ParallelExit
      | [] => ParallelRun script_names
      end
  end.

End Cli.

(* ===================================================================== *)
(** * Proofs                                                               *)
(* ===================================================================== *)

Module FingerprintFacts.
Import PyRepr Fingerprint.

Lemma escape_char_hex (c : ascii) :
  is_hex_char c = true -> escape_char sq c = String c EmptyString.
Proof.
  destruct c as [[] [] [] [] [] [] [] []]; vm_compute;
    intros H; try discriminate H; reflexivity.
Qed.

Lemma hex_char_not_sq (c : ascii) : is_hex_char c = true -> Ascii.eqb sq c = false.
Proof.
  destruct c as [[] [] [] [] [] [] [] []]; vm_compute;
    intros H; try discriminate H; reflexivity.
Qed.

Lemma escape_hex (s : string) : is_hex s = true -> escape sq s = s.
Proof.
  induction s as [|c s IH]; cbn [escape is_hex]; [done|].
  intros [Hc Hs]%andb_prop.
  rewrite escape_char_hex by done. simpl. by rewrite IH.
Qed.

Lemma hex_no_sq (s : string) : is_hex s = true -> has_char sq s = false.
Proof.
  induction s as [|c s IH]; cbn [has_char is_hex]; [done|].
  intros [Hc Hs]%andb_prop. by rewrite hex_char_not_sq, IH.
Qed.

Lemma repr_str_hex (s : string) :
  is_hex s = true -> repr_str s = String sq (s +:+ String sq EmptyString).
Proof.
  intros H. unfold repr_str. rewrite hex_no_sq by done. simpl.
  by rewrite escape_hex.
Qed.

Lemma append_cons (x : ascii) (a b : string) : String x a +:+ b = String x (a +:+ b).
Proof. reflexivity. Qed.

Lemma append_nil (b : string) : EmptyString +:+ b = b.
Proof. reflexivity. Qed.

Lemma append_assoc_str (a b c : string) : (a +:+ b) +:+ c = a +:+ (b +:+ c).
Proof.
  induction a as [|x a IH]; [done|]. rewrite !append_cons. by rewrite IH.
Qed.

Lemma concat_rendered (x : string) (xs : list string) :
  is_hex x = true -> Forall (fun s => is_hex s = true) xs ->
  String.concat ", " (map repr_str (x :: xs)) +:+ "]" = rendered_tail (x :: xs).
Proof.
  revert x. induction xs as [|y xs IH]; intros x Hx Hxs.
  - change (String.concat ", " (map repr_str [x])) with (repr_str x).
    rewrite repr_str_hex by done.
    rewrite append_cons, append_assoc_str. reflexivity.
  - inversion Hxs as [|? ? Hy Hys]; subst.
    change (String.concat ", " (map repr_str (x :: y :: xs)))
      with (repr_str x +:+ ", " +:+ String.concat ", " (map repr_str (y :: xs))).
    rewrite repr_str_hex by done.
    rewrite !append_assoc_str. rewrite (IH y) by done.
    rewrite append_cons, append_assoc_str. reflexivity.
Qed.

Lemma repr_list_hex (xs : list string) :
  Forall (fun s => is_hex s = true) xs ->
  repr_list xs = String "[" (rendered_tail xs).
Proof.
  intros H. unfold repr_list. destruct xs as [|x xs]; [done|].
  inversion H; subst. simpl (String "[" EmptyString +:+ _).
  f_equal. by apply concat_rendered.
Qed.

Lemma split_at_sq (a b u v : string) :
  has_char sq a = false -> has_char sq b = false ->
  a +:+ String sq u = b +:+ String sq v -> a = b /\ u = v.
Proof.
  revert b. induction a as [|x a IH]; intros b Ha Hb Heq; destruct b as [|y b];
    rewrite ?append_nil, ?append_cons in Heq; cbn [has_char] in Ha, Hb.
  - by injection Heq.
  - injection Heq as Hy _. subst y. by rewrite Ascii.eqb_refl in Hb.
  - injection Heq as Hx _. subst x. by rewrite Ascii.eqb_refl in Ha.
  - apply orb_false_iff in Ha as [_ Ha]. apply orb_false_iff in Hb as [_ Hb].
    injection Heq as -> Heq. destruct (IH b Ha Hb Heq) as [-> ->]. done.
Qed.

Lemma rendered_tail_inj (xs ys : list string) :
  Forall (fun s => is_hex s = true) xs -> Forall (fun s => is_hex s = true) ys ->
  rendered_tail xs = rendered_tail ys -> xs = ys.
Proof.
  revert ys. induction xs as [|x xs IH]; intros ys Hx Hy Heq;
    destruct ys as [|y ys]; try done; simpl in Heq; try discriminate Heq.
  inversion Hx as [|? ? Hx0 Hxs]; inversion Hy as [|? ? Hy0 Hys]; subst.
  injection Heq as Heq.
  apply split_at_sq in Heq as [-> Heq]; [|by apply hex_no_sq..].
  destruct xs as [|x' xs], ys as [|y' ys]; try done;
    rewrite ?append_cons, ?append_nil in Heq; try discriminate Heq.
  assert (Ht : rendered_tail (x' :: xs) = rendered_tail (y' :: ys))
    by (injection Heq; intros; cbn [rendered_tail]; congruence).
  f_equal. by apply IH.
Qed.

(** C4: a target's fingerprint is SHA-256 of [repr] of the list of its
    dependencies' checksum values in declared order; for hexadecimal
    checksums that rendering determines the ordered list, duplicates
    included, so nothing is reordered or deduplicated before hashing. *)
Theorem compute_checksum_ordered_repr
    (sha256_hex : string -> string) (dependency : Type)
    (dep_checksum_value : dependency -> string) (deps deps' : list dependency) :
  compute_checksum sha256_hex dependency dep_checksum_value deps =
    sha256_hex (repr_list (map dep_checksum_value deps)) /\
  (Forall (fun s => is_hex s = true) (map dep_checksum_value deps) ->
   Forall (fun s => is_hex s = true) (map dep_checksum_value deps') ->
   repr_list (map dep_checksum_value deps) = repr_list (map dep_checksum_value deps') ->
   map dep_checksum_value deps = map dep_checksum_value deps').
Proof.
  split; [reflexivity|].
  intros Hd Hd' Heq. rewrite !repr_list_hex in Heq by done.
  injection Heq as Heq. by apply rendered_tail_inj.
Qed.

Lemma compute_checksum_ordered_repr_witness :
  compute_checksum (fun s => s) string (fun s => s) ["ab"; "ab"; "01"] =
    "['ab', 'ab', '01']" /\
  map (fun s : string => s) ["ab"; "ab"; "01"] = map (fun s : string => s) ["ab"; "ab"; "01"].
Proof.
  split.
  - exact (proj1 (compute_checksum_ordered_repr (fun s => s) string (fun s => s)
                    ["ab"; "ab"; "01"] ["ab"; "ab"; "01"])).
  - apply (proj2 (compute_checksum_ordered_repr (fun s => s) string (fun s => s)
                    ["ab"; "ab"; "01"] ["ab"; "ab"; "01"]));
      [repeat constructor | repeat constructor | reflexivity].
Defined.

End FingerprintFacts.

Module EngineFacts.
Import Target Engine.

Section Steps.
Variable targets : gmap string target.
Variable backend : backend_type.
Variable build_ok save_ok : string -> bool.

(** The [prepare_deps] loop of [execute] at a given fuel. *)
Definition prepare_deps (fuel : nat) : list string -> world -> outcome :=
  fix go (ds : list string) (w : world) : outcome :=
    match ds with
    | [] => Ok w
    | d :: ds' =>
        match targets !! d with
        | None => Raised KeyError w
        | Some td =>
            match execute targets backend build_ok save_ok fuel NORMAL td w with
            | Ok w' => go ds' w'
            | o => o
            end
        end
    end.

Lemma execute_S (fuel : nat) (mode : TargetExecutionMode) (t : target) (w : world) :
  execute targets backend build_ok save_ok (S fuel) mode t w =
  match mode with
  | DEPS_ONLY => prepare_deps fuel (target_deps t) w
  | LOAD_ONLY => if cache_hit backend t w then Ok (cache_load t w) else Exit 1 w
  | NORMAL =>
      let r1 := if is_serve backend then prepare_deps fuel (target_deps t) w else Ok w in
      match r1 with
      | Ok w1 =>
          let r2 :=
            if cache_hit backend t w then Ok w1
            else
              match (if is_serve backend then Ok w1
                     else prepare_deps fuel (target_deps t) w1) with
              | Ok w2 =>
                  if build_ok (name t) then Ok (build t w2)
                  else Raised CalledProcessError w2
              | o => o
              end in
          match r2 with
          | Ok w3 =>
              if cache_hit backend t w then Ok (cache_load t w3)
              else if save_ok (name t) then Ok (cache_save backend t w3)
              else Exit 1 w3
          | o => o
          end
      | o => o
      end
  end.
Proof. reflexivity. Qed.

End Steps.

(** C1 (as the code does it): in [NORMAL] mode a cache hit ends in a load
    without a build; for the Serve backend the load follows [prepare_deps],
    for the others it is the only step. A miss runs [prepare_deps] (every
    upstream target in [NORMAL] mode, in order), then the build, then the
    save, with no load afterwards. *)
Theorem execute_normal_hit_load_miss_save
    (targets : gmap string target) (backend : backend_type)
    (build_ok save_ok : string -> bool) (fuel : nat) (t : target) (w w' : world) :
  execute targets backend build_ok save_ok (S fuel) NORMAL t w = Ok w' ->
  (cache_hit backend t w = true ->
     (is_serve backend = false -> w' = cache_load t w) /\
     (is_serve backend = true ->
        exists w1, prepare_deps targets backend build_ok save_ok fuel (target_deps t) w = Ok w1 /\
                   w' = cache_load t w1)) /\
  (cache_hit backend t w = false ->
     exists w2, prepare_deps targets backend build_ok save_ok fuel (target_deps t) w = Ok w2 /\
       build_ok (name t) = true /\ save_ok (name t) = true /\
       w' = cache_save backend t (build t w2)).
Proof.
  intros H. rewrite execute_S in H. cbv zeta in H. split; intros Hc; rewrite Hc in H.
  - split; intros Hs; rewrite Hs in H.
    + by injection H as <-.
    + destruct (prepare_deps _ _ _ _ fuel (target_deps t) w) as [w1|c w1|e w1|];
        try discriminate.
      injection H as <-. eauto.
  - destruct (is_serve backend);
      destruct (prepare_deps _ _ _ _ fuel (target_deps t) w) as [w1|c w1|e w1|];
      try discriminate;
      destruct (build_ok (name t)); try discriminate;
      destruct (save_ok (name t)); try discriminate;
      injection H as <-; eauto.
Qed.

Definition demo_target : target := mk_target "quack:test" "ab12" [].

(** C1 as stated fails: a first [NORMAL] run of a target with no
    upstream targets on an empty Local cache builds and saves, and its
    last step is the save, not a load. *)
Lemma normal_miss_ends_without_load :
  exists w',
    execute ∅ Local (fun _ => true) (fun _ => true) 1 NORMAL demo_target
      (mk_world ∅ []) = Ok w' /\
    trace w' = [EvBuild (key demo_target); EvSave (key demo_target)] /\
    ~ (exists pre, trace w' = pre ++ [EvLoad (key demo_target)]).
Proof.
  eexists. split; [reflexivity|]. split; [reflexivity|].
  intros [pre Hp]. apply (f_equal (@last event)) in Hp.
  rewrite last_snoc in Hp. discriminate Hp.
Qed.

(** A target [top] with one upstream target [up]. *)
Definition demo_up : target := mk_target "up" "0001" [].
Definition demo_top : target := mk_target "top" "0002" ["up"].
Definition demo_graph : gmap string target := {[ "up" := demo_up; "top" := demo_top ]}.

Lemma execute_normal_hit_load_miss_save_witness :
  (* a miss on an empty Local cache: [up] is run first, then [top] is built and saved *)
  (exists w' w2,
     execute demo_graph Local (fun _ => true) (fun _ => true) 2 NORMAL demo_top
       (mk_world ∅ []) = Ok w' /\
     prepare_deps demo_graph Local (fun _ => true) (fun _ => true) 1 ["up"] (mk_world ∅ []) = Ok w2 /\
     w' = cache_save Local demo_top (build demo_top w2) /\
     trace w2 = [EvBuild (key demo_up); EvSave (key demo_up)]) /\
  (* a hit on Local: a load only *)
  (exists w',
     execute demo_graph Local (fun _ => true) (fun _ => true) 2 NORMAL demo_top
       (mk_world {[ key demo_top ]} []) = Ok w' /\
     w' = cache_load demo_top (mk_world {[ key demo_top ]} [])) /\
  (* a hit on Serve: [up] is run, then [top] is loaded *)
  (exists w' w1,
     execute demo_graph Serve (fun _ => true) (fun _ => true) 2 NORMAL demo_top
       (mk_world {[ key demo_top ]} []) = Ok w' /\
     prepare_deps demo_graph Serve (fun _ => true) (fun _ => true) 1 ["up"]
       (mk_world {[ key demo_top ]} []) = Ok w1 /\
     w' = cache_load demo_top w1).
Proof.
  split; [|split].
  - assert (H : execute demo_graph Local (fun _ => true) (fun _ => true) 2 NORMAL demo_top
       (mk_world ∅ []) = Ok (cache_save Local demo_top (build demo_top
          (cache_save Local demo_up (build demo_up (mk_world ∅ []))))))
      by reflexivity.
    destruct (proj2 (execute_normal_hit_load_miss_save demo_graph Local (fun _ => true)
                       (fun _ => true) 1 demo_top (mk_world ∅ []) _ H) eq_refl)
      as (w2 & Hp & _ & _ & Hw).
    exists (cache_save Local demo_top (build demo_top
              (cache_save Local demo_up (build demo_up (mk_world ∅ []))))), w2.
    split; [exact H|]. split; [exact Hp|]. split; [exact Hw|].
    vm_compute in Hp. injection Hp as <-. reflexivity.
  - assert (H : execute demo_graph Local (fun _ => true) (fun _ => true) 2 NORMAL demo_top
       (mk_world {[ key demo_top ]} []) = Ok (cache_load demo_top (mk_world {[ key demo_top ]} [])))
      by reflexivity.
    eexists. split; [exact H|].
    exact (proj1 (proj1 (execute_normal_hit_load_miss_save demo_graph Local (fun _ => true)
                           (fun _ => true) 1 demo_top _ _ H) eq_refl) eq_refl).
  - assert (H : execute demo_graph Serve (fun _ => true) (fun _ => true) 2 NORMAL demo_top
       (mk_world {[ key demo_top ]} []) =
       Ok (cache_load demo_top (cache_save Serve demo_up (build demo_up
             (mk_world {[ key demo_top ]} [])))))
      by reflexivity.
    destruct (proj2 (proj1 (execute_normal_hit_load_miss_save demo_graph Serve (fun _ => true)
                              (fun _ => true) 1 demo_top _ _ H) eq_refl) eq_refl)
      as (w1 & Hp & Hw).
    do 2 eexists. split; [exact H|]. split; [exact Hp|exact Hw].
Defined.

(** C2 (as the code does it): a [LOAD_ONLY] invocation resolves the
    fingerprint from the checksum database row keyed by app name, commit
    SHA, job name and target name, assigns it to [checksum_value], and then
    loads on a cache hit; a missing row, a missing target or a cache miss
    ends the invocation with exit code 1. *)
Theorem load_only_resolves_checksum_from_db
    (targets : gmap string target) (backend : backend_type)
    (build_ok save_ok : string -> bool) (fuel : nat)
    (app_name target_name job_name : string) (db : list TargetChecksum)
    (ci : CIEnvironment) (w : world) :
  fst (execute_target targets backend build_ok save_ok (S fuel) app_name target_name
         LOAD_ONLY (Some db) ci job_name w) =
  match query_checksum db app_name (commit_sha ci) job_name target_name with
  | None => Exit 1 w
  | Some row =>
      match targets !! target_name with
      | None => Exit 1 w
      | Some t =>
          let t' := mk_target (name t) (row_checksum row) (target_deps t) in
          if cache_hit backend t' w then Ok (cache_load t' w) else Exit 1 w
      end
  end.
Proof.
  unfold execute_target, get_by_job, get_by_name. cbn [execute].
  repeat (case_match; simplify_eq/=); done.
Qed.

Definition demo_targets : gmap string target :=
  {[ "quack:test" := mk_target "quack:test" "0000" [] ]}.

Definition demo_ci : CIEnvironment := mk_ci true false "abc123" "build" 0 0.

(** C2 as stated fails: a commit-index object for the commit holds the
    fingerprint ["ff00"] and the cache holds that entry, but the checksum
    database has no row, and the invocation exits with code 1 instead of
    loading the entry. *)
Lemma load_only_ignores_commit_index :
  ~ (forall (db : list TargetChecksum) (objects : gmap string string) (w : world) (c : string),
       objects !! commit_metadata_path "quack_test" (commit_sha demo_ci) "quack:test" = Some c ->
       ("quack:test", c) ∈ entries w ->
       fst (execute_target demo_targets OSS (fun _ => true) (fun _ => true) 1
              "quack_test" "quack:test" LOAD_ONLY (Some db) demo_ci "build" w) =
       Ok (mk_world (entries w) (trace w ++ [EvLoad ("quack:test", c)]))).
Proof.
  intros H.
  specialize (H [] {[ commit_metadata_path "quack_test" "abc123" "quack:test" := "ff00" ]}
                (mk_world {[ ("quack:test", "ff00") ]} []) "ff00").
  assert (Hc : ("quack:test", "ff00") ∈ entries (mk_world {[ ("quack:test", "ff00") ]} []))
    by (simpl; set_solver).
  specialize (H eq_refl Hc). discriminate H.
Qed.

End EngineFacts.

Module TargetFacts.
Import Target.

(** C7: [cache_archive_filename] appends [.tar.gz], not [.tar.zst]: for
    the target [quack:test] it is ["quack:test.tar.gz"], while the test
    [test_cache_archive_filename] expects ["quack:test.tar.zst"] and
    [Archiver.archive] writes a zstd-compressed tar. *)
Theorem cache_archive_filename_is_tar_gz :
  cache_archive_filename (mk_target "quack:test" "ab12" []) = "quack:test.tar.gz" /\
  cache_archive_filename (mk_target "quack:test" "ab12" []) <> "quack:test.tar.zst".
Proof. split; [reflexivity | discriminate]. Qed.

End TargetFacts.

Module TarFacts.
Import Archiver.







End TarFacts.

Module CacheFacts.
Import Target Cache.

Section Props.
Variable CACHE_METADATA_FILENAME xdg_cache_home app_name oss_base_path commit_sha : string.
Variable save_for_load : bool.
Variable zstd_tar : list (string * string) -> string.
Variable metadata_json : string -> string -> string -> string.










End Props.




End CacheFacts.

Module ArchiverFacts.
Import Archiver FingerprintFacts.

Lemma append_cancel_l (a x y : string) : a +:+ x = a +:+ y -> x = y.
Proof.
  induction a as [|c a IH]; [done|]. rewrite !append_cons. intros H.
  injection H as H. by apply IH.
Qed.

Lemma dest_join_inj (dest r1 r2 : string) :
  dest_join dest r1 = dest_join dest r2 -> r1 = r2.
Proof.
  unfold dest_join. destruct (String.eqb dest "."); [done|].
  destruct (String.eqb _ "/"); intros Hj; apply append_cancel_l in Hj; [done|].
  by injection Hj.
Qed.

Lemma temp_dir_in (members : list (string * string)) (r c : string) :
  temp_dir members !! r = Some c -> (r, c) ∈ members.
Proof.
  unfold temp_dir.
  assert (Hgen : forall m : gmap string string,
    foldl (fun m '(n, c) => <[n := c]> m) m members !! r = Some c ->
    m !! r = Some c \/ (r, c) ∈ members).
  { induction members as [|[n c0] members IH]; intros m H; simpl in H; [by left|].
    destruct (IH _ H) as [Hm|Hm].
    - destruct (decide (n = r)) as [<-|Hne].
      + rewrite lookup_insert_eq in Hm. injection Hm as <-. right. by left.
      + rewrite lookup_insert_ne in Hm by done. by left.
    - right. by right. }
  intros H. destruct (Hgen ∅ H) as [Hm|Hm]; [by rewrite lookup_empty in Hm|done].
Qed.



Section WithHash.
Variable sha256_hex : string -> string.
Variable now : Z.

(** What [_sync_with_checksum] leaves at a destination file for an
    archived content [c]. *)
Definition synced (files : fs) (d c : string) : option (string * Z) :=
  match files !! d with
  | Some (c', m) => if String.eqb (sha256_hex c) (sha256_hex c') then Some (c', m)
                    else Some (c, now)
  | None => Some (c, now)
  end.

Lemma sync_file_other (dest : string) (files : fs) (r c d : string) :
  dest_join dest r <> d ->
  sync_file sha256_hex now dest files (r, c) !! d = files !! d.
Proof.
  intros Hne. unfold sync_file.
  destruct (files !! dest_join dest r) as [[c' m]|]; [destruct (negb _)|];
    try done; by rewrite lookup_insert_ne.
Qed.

Lemma sync_file_self (dest : string) (files : fs) (r c : string) :
  sync_file sha256_hex now dest files (r, c) !! dest_join dest r =
  synced files (dest_join dest r) c.
Proof.
  unfold sync_file, synced.
  destruct (files !! dest_join dest r) as [[c' m]|] eqn:Hf.
  - destruct (String.eqb (sha256_hex c) (sha256_hex c')); simpl.
    + done.
    + by rewrite lookup_insert_eq.
  - by rewrite lookup_insert_eq.
Qed.

Lemma sync_fold_other (dest : string) (l : list (string * string)) (files : fs) (d : string) :
  (forall r, r ∈ map fst l -> dest_join dest r <> d) ->
  foldl (sync_file sha256_hex now dest) files l !! d = files !! d.
Proof.
  revert files. induction l as [|[r c] l IH]; intros files Hl; [done|].
  simpl. rewrite IH.
  - apply sync_file_other. apply Hl. by left.
  - intros r' Hr'. apply Hl. by right.
Qed.

Lemma sync_fold_entry (dest : string) (l : list (string * string)) (files : fs) (r c : string) :
  NoDup (fst <$> l) -> (r, c) ∈ l ->
  foldl (sync_file sha256_hex now dest) files l !! dest_join dest r =
  synced files (dest_join dest r) c.
Proof.
  revert files. induction l as [|[r0 c0] l IH]; intros files Hnd Hin.
  - by apply elem_of_nil in Hin.
  - change (foldl (sync_file sha256_hex now dest) files ((r0, c0) :: l))
      with (foldl (sync_file sha256_hex now dest) (sync_file sha256_hex now dest files (r0, c0)) l).
    rewrite fmap_cons in Hnd. apply NoDup_cons in Hnd as [Hr0 Hnd].
    apply elem_of_cons in Hin as [Heq|Hin].
    + injection Heq as -> ->.
      rewrite sync_fold_other.
      * apply sync_file_self.
      * intros r' Hr' Hj. apply dest_join_inj in Hj. subst. done.
    + rewrite IH by done.
      unfold synced. rewrite sync_file_other; [done|].
      intros Hj. apply dest_join_inj in Hj. subst r0.
      apply Hr0. apply list_elem_of_fmap. by exists (r, c).
Qed.

Lemma sync_fold_id (dest : string) (l : list (string * string)) (files : fs) :
  (forall x, x ∈ l -> sync_file sha256_hex now dest files x = files) ->
  foldl (sync_file sha256_hex now dest) files l = files.
Proof.
  induction l as [|x l IH]; intros H; [done|].
  simpl. rewrite H by (by left). apply IH. intros y Hy. apply H. by right.
Qed.

End WithHash.



End ArchiverFacts.

Module DependencyFacts.
Import Dependency.

(** A matcher for the fragment of Python's [re] syntax used below:
    [^] at the start, [$] at the end, [.], literals and [x*]; as
    [re.match] it is anchored at the start of the file name. *)
Inductive atom := AAny | ALit (c : ascii).

Inductive tok := TAtom (a : atom) | TStar (a : atom) | TEnd.

Definition atom_of (c : ascii) : atom := if Ascii.eqb c "." then AAny else ALit c.

Definition atom_ok (a : atom) (c : ascii) : bool :=
  match a with AAny => negb (Ascii.eqb c "010"%char) | ALit d => Ascii.eqb c d end.

Fixpoint parse (s : string) : list tok :=
  match s with
  | EmptyString => []
  | String "$" EmptyString => [TEnd]
  | String c (String "*" rest) => TStar (atom_of c) :: parse rest
  | String c rest => TAtom (atom_of c) :: parse rest
  end.

Fixpoint match_here (ts : list tok) (s : string) : bool :=
  match ts with
  | [] => true
  | TEnd :: _ => match s with EmptyString => true | _ => false end
  | TAtom a :: ts' =>
      match s with String c s' => atom_ok a c && match_here ts' s' | EmptyString => false end
  | TStar a :: ts' =>
      (fix star (s : string) : bool :=
         match_here ts' s ||
         match s with String c s' => atom_ok a c && star s' | EmptyString => false end) s
  end.

Definition re_match_simple (p f : string) : bool :=
  match p with
  | String "^" p' => match_here (parse p') f
  | _ => match_here (parse p) f
  end.

(** C6: [get_matched_files] counts a file only for the FIRST include
    pattern that matches it (and the first exclude pattern). With the
    include patterns [^.*$] and [^a$] and the one existing file [a], both
    patterns match a real file, yet [^a$] keeps a count of 0 and the
    dependency raises [SpecError] for it. *)
Lemma overlapping_include_pattern_rejected (re_match : string -> string -> bool)
    (path_exists : string -> bool) :
  path_exists "a" = true -> re_match "^.*$" "a" = true -> re_match "^a$" "a" = true ->
  (forall p, p ∈ ["^.*$"; "^a$"] ->
     exists f, f ∈ ["a"] /\ path_exists f = true /\ re_match p f = true) /\
  get_matched_files re_match path_exists ["^.*$"; "^a$"] [] ["a"] = inl "^a$".
Proof.
  intros Hex H1 H2. split.
  - intros p Hp. exists "a". split; [by left|]. split; [done|].
    apply elem_of_cons in Hp as [->|Hp]; [done|].
    apply elem_of_cons in Hp as [->|Hp]; [done|]. by apply elem_of_nil in Hp.
  - unfold get_matched_files. simpl. unfold scan_file. rewrite Hex. simpl.
    rewrite H1. simpl. vm_compute. reflexivity.
Qed.

Lemma overlapping_include_pattern_rejected_witness :
  re_match_simple "^.*$" "a" = true /\ re_match_simple "^a$" "a" = true /\
  get_matched_files re_match_simple (fun _ => true) ["^.*$"; "^a$"] [] ["a"] = inl "^a$".
Proof.
  split; [vm_compute; reflexivity|]. split; [vm_compute; reflexivity|].
  exact (proj2 (overlapping_include_pattern_rejected re_match_simple (fun _ => true)
                  eq_refl eq_refl eq_refl)).
Defined.
End DependencyFacts.

Module PostProcessFacts.
Import PyRepr Fingerprint FingerprintFacts PostProcess.

Lemma global_lookup_in (gd : globals) (n : string) (g : dep) :
  global_lookup gd n = Some g -> exists k, (k, g) ∈ gd.
Proof.
  induction gd as [|[k d] gd IH]; simpl; [done|].
  destruct (String.eqb k n).
  - intros [= <-]. exists k. by left.
  - intros H. destruct (IH H) as [k' Hk]. exists k'. by right.
Qed.

Lemma index_of_middle (pre rest : list dep) (d : dep) :
  (forall x, x ∈ pre -> x <> d) -> index_of d (pre ++ d :: rest) = Some (length pre).
Proof.
  induction pre as [|y pre IH]; intros H; simpl.
  - by rewrite decide_True.
  - rewrite decide_False by (apply H; by left).
    rewrite IH; [done|]. intros x Hx. apply H. by right.
Qed.

Lemma insert_middle (pre rest : list dep) (d g : dep) :
  <[length pre := g]> (pre ++ d :: rest) = (pre ++ [g]) ++ rest.
Proof.
  rewrite insert_app_r_alt by lia. rewrite Nat.sub_diag. simpl.
  by rewrite <- app_assoc.
Qed.

Lemma length_snoc (pre : list dep) (g : dep) : S (length pre) = length (pre ++ [g]).
Proof. rewrite length_app. simpl. lia. Qed.

Section Resolve.
Variable gd : globals.
(** Every global dependency is one of the four real kinds. *)
Hypothesis Hgd : forall n g, (n, g) ∈ gd -> dep_type g <> "global".

Lemma resolve_one_global (d g : dep) :
  resolve_one gd d = Some g -> dep_type g <> "global".
Proof.
  unfold resolve_one. destruct (String.eqb_spec (dep_type d) "global") as [_|Hd].
  - intros Hl. destruct (global_lookup_in gd _ _ Hl) as [k Hk]. by apply (Hgd k).
  - by intros [= <-].
Qed.

Lemma resolve_loop_spec (rest pre : list dep) :
  (forall x, x ∈ pre -> dep_type x <> "global") ->
  resolve_loop gd (length rest) (length pre) (pre ++ rest) =
    (r ← mapM (resolve_one gd) rest; Some (pre ++ r)).
Proof.
  revert pre. induction rest as [|d rest IH]; intros pre Hpre.
  - simpl. by rewrite app_nil_r.
  - cbn [length resolve_loop]. rewrite list_lookup_middle by done.
    cbn [mapM].
    destruct (String.eqb (dep_type d) "global") eqn:Hd.
    + assert (Hr : resolve_one gd d = global_lookup gd (dep_name d))
        by (unfold resolve_one; by rewrite Hd).
      rewrite Hr. apply String.eqb_eq in Hd.
      destruct (global_lookup gd (dep_name d)) as [g|] eqn:Hl; [|done].
      rewrite index_of_middle.
      2: { intros x Hx ->. by apply (Hpre d). }
      rewrite insert_middle, (length_snoc pre g), IH.
      * simpl. destruct (mapM (resolve_one gd) rest); simpl; [|done].
        by rewrite <- app_assoc.
      * intros x Hx. apply elem_of_app in Hx as [Hx|Hx]; [by apply Hpre|].
        apply list_elem_of_singleton in Hx as ->.
        destruct (global_lookup_in gd _ _ Hl) as [k Hk]. by apply (Hgd k).
    + assert (Hr : resolve_one gd d = Some d) by (unfold resolve_one; by rewrite Hd).
      rewrite Hr. apply String.eqb_neq in Hd.
      replace (pre ++ d :: rest) with ((pre ++ [d]) ++ rest) by (by rewrite <- app_assoc).
      rewrite (length_snoc pre d), IH.
      * simpl. destruct (mapM (resolve_one gd) rest); simpl; [|done].
        by rewrite <- app_assoc.
      * intros x Hx. apply elem_of_app in Hx as [Hx|Hx]; [by apply Hpre|].
        by apply list_elem_of_singleton in Hx as ->.
Qed.

Lemma mapM_resolve_prefix (pre deps : list dep) :
  (forall x, x ∈ pre -> dep_type x <> "global") ->
  mapM (resolve_one gd) (pre ++ deps) = (r ← mapM (resolve_one gd) deps; Some (pre ++ r)).
Proof.
  induction pre as [|x pre IH]; intros Hpre.
  - simpl. by destruct (mapM (resolve_one gd) deps).
  - cbn [app mapM].
    assert (Hr : resolve_one gd x = Some x).
    { unfold resolve_one. destruct (String.eqb_spec (dep_type x) "global") as [Hx|_]; [|done].
      exfalso. by apply (Hpre x); [left|]. }
    rewrite Hr. simpl. rewrite IH by (intros y Hy; apply Hpre; by right).
    by destruct (mapM (resolve_one gd) deps).
Qed.

Lemma propagate_not_global (x : dep) :
  x ∈ global_deps_to_propagate gd -> dep_type x <> "global".
Proof.
  unfold global_deps_to_propagate. intros Hx.
  apply list_elem_of_In, filter_In in Hx as [Hx _].
  apply in_map_iff in Hx as [[k x'] [<- Hk]].
  apply (Hgd k). by apply list_elem_of_In.
Qed.

Lemma post_process_deps_spec (deps : list dep) :
  post_process_deps gd deps =
    (r ← mapM (resolve_one gd) deps; Some (global_deps_to_propagate gd ++ r)).
Proof.
  unfold post_process_deps.
  pose proof (resolve_loop_spec (global_deps_to_propagate gd ++ deps) []) as Hl.
  cbn [length app] in Hl. rewrite Hl by (intros x Hx; by apply elem_of_nil in Hx).
  rewrite mapM_resolve_prefix by apply propagate_not_global.
  by destruct (mapM (resolve_one gd) deps).
Qed.
End Resolve.

Lemma repr_list_inj_hex (xs ys : list string) :
  Forall (fun s => is_hex s = true) xs -> Forall (fun s => is_hex s = true) ys ->
  repr_list xs = repr_list ys -> xs = ys.
Proof.
  intros Hx Hy Heq. rewrite !repr_list_hex in Heq by done.
  injection Heq as Heq. by apply rendered_tail_inj.
Qed.

Lemma propagate_split (A B : globals) (n : string) (g : dep) :
  dep_propagate g = true ->
  global_deps_to_propagate (A ++ (n, g) :: B) =
    global_deps_to_propagate A ++ g :: global_deps_to_propagate B.
Proof.
  intros Hp. unfold global_deps_to_propagate.
  rewrite map_app, List.filter_app. simpl. by rewrite Hp.
Qed.

(** C8: after [post_process] a target's dependency list is the
    propagating global dependencies, in the declaration order of
    [global_dependencies], followed by its own dependencies with every
    [global] reference resolved (no dependency is dropped, reordered or
    merged). Hence, when one propagating global dependency [g] is
    replaced by [g'] with another checksum, the checksum list of every
    target changes, and so does the string its fingerprint hashes (and
    the fingerprint itself, for a collision-free hash). *)
Theorem post_process_prepends_propagating :
  (forall (gd : globals) (deps : list dep),
     (forall n g, (n, g) ∈ gd -> dep_type g <> "global") ->
     post_process_deps gd deps =
       (r ← mapM (resolve_one gd) deps; Some (global_deps_to_propagate gd ++ r))) /\
  (forall (A B : globals) (n : string) (g g' : dep) (deps l1 l2 : list dep)
          (checksum_value : dep -> string) (sha256_hex : string -> string),
     (forall k x, (k, x) ∈ A ++ (n, g) :: B -> dep_type x <> "global") ->
     dep_type g' <> "global" ->
     dep_propagate g = true -> dep_propagate g' = true ->
     checksum_value g <> checksum_value g' ->
     post_process_deps (A ++ (n, g) :: B) deps = Some l1 ->
     post_process_deps (A ++ (n, g') :: B) deps = Some l2 ->
     Forall (fun d => is_hex (checksum_value d) = true) (l1 ++ l2) ->
     repr_list (map checksum_value l1) <> repr_list (map checksum_value l2) /\
     ((forall a b, sha256_hex a = sha256_hex b -> a = b) ->
      compute_checksum sha256_hex dep checksum_value l1 <>
      compute_checksum sha256_hex dep checksum_value l2)).
Proof.
  split; [intros gd deps Hgd; by apply post_process_deps_spec|].
  intros A B n g g' deps l1 l2 cs sha Hgd1 Hg' Hp Hp' Hcs H1 H2 Hhex.
  assert (Hgd2 : forall k x, (k, x) ∈ A ++ (n, g') :: B -> dep_type x <> "global").
  { intros k x Hx. apply elem_of_app in Hx as [Hx|Hx].
    - apply (Hgd1 k). apply elem_of_app. by left.
    - apply elem_of_cons in Hx as [[= -> ->]|Hx]; [done|].
      apply (Hgd1 k). apply elem_of_app. right. by right. }
  rewrite post_process_deps_spec, propagate_split in H1 by done.
  rewrite post_process_deps_spec, propagate_split in H2 by done.
  destruct (mapM _ deps) as [r1|] in H1; [|discriminate]. simpl in H1.
  destruct (mapM _ deps) as [r2|] in H2; [|discriminate]. simpl in H2.
  injection H1 as <-. injection H2 as <-.
  assert (Hne : map cs ((global_deps_to_propagate A ++ g :: global_deps_to_propagate B) ++ r1) <>
                map cs ((global_deps_to_propagate A ++ g' :: global_deps_to_propagate B) ++ r2)).
  { intros Heq. rewrite <- !app_assoc, !map_app in Heq.
    apply app_inv_head in Heq. simpl in Heq. injection Heq as Heq _. done. }
  apply Forall_app in Hhex as [Hh1 Hh2].
  assert (Hr : repr_list (map cs ((global_deps_to_propagate A ++ g :: global_deps_to_propagate B) ++ r1)) <>
               repr_list (map cs ((global_deps_to_propagate A ++ g' :: global_deps_to_propagate B) ++ r2))).
  { intros Heq. apply Hne. apply repr_list_inj_hex; [by apply Forall_map..|done]. }
  split; [done|].
  intros Hinj Hc. unfold compute_checksum in Hc. by apply Hinj in Hc.
Qed.

Definition demo_global : dep := mk_dep "source" "source:quack" true "ab".
Definition demo_global' : dep := mk_dep "source" "source:quack" true "cd".
Definition demo_own : dep := mk_dep "global" "command:quack" false "".
Definition demo_command : dep := mk_dep "command" "command:quack" false "01".
Definition demo_globals (g : dep) : globals :=
  [("source:quack", g); ("command:quack", demo_command)].

Lemma post_process_prepends_propagating_witness :
  post_process_deps (demo_globals demo_global) [demo_own] = Some [demo_global; demo_command] /\
  compute_checksum (fun s => s) dep dep_body [demo_global; demo_command] <>
  compute_checksum (fun s => s) dep dep_body [demo_global'; demo_command].
Proof.
  split.
  - rewrite (proj1 post_process_prepends_propagating).
    + vm_compute. reflexivity.
    + intros n g Hg. apply elem_of_cons in Hg as [[= -> ->]|Hg]; [discriminate|].
      apply list_elem_of_singleton in Hg as [= -> ->]. discriminate.
  - refine (proj2 (proj2 post_process_prepends_propagating [] [("command:quack", demo_command)]
              "source:quack" demo_global demo_global' [demo_own]
              [demo_global; demo_command] [demo_global'; demo_command]
              dep_body (fun s => s) _ _ _ _ _ _ _ _) _).
    + intros k x Hx. apply elem_of_cons in Hx as [[= -> ->]|Hx]; [discriminate|].
      apply list_elem_of_singleton in Hx as [= -> ->]. discriminate.
    + discriminate.
    + reflexivity.
    + reflexivity.
    + discriminate.
    + vm_compute. reflexivity.
    + vm_compute. reflexivity.
    + repeat constructor.
    + intros a b Hab. exact Hab.
Defined.
End PostProcessFacts.

Module OutputsFacts.
Import Outputs.

Lemma paths_of_insert_eq (p : store) (x : string) (v : gset string) :
  paths_of (<[x := v]> p) x = v.
Proof. unfold paths_of. by rewrite lookup_insert_eq. Qed.

Lemma paths_of_insert_ne (p : store) (x y : string) (v : gset string) :
  x <> y -> paths_of (<[x := v]> p) y = paths_of p y.
Proof. intros Hne. unfold paths_of. by rewrite lookup_insert_ne. Qed.

Section Frame.
Variable targets : gmap string tgt.
(** A rank that decreases along the target dependencies of every
    inheriting target: the target graph is a DAG. *)
Variable rank : string -> nat.
Hypothesis Hdag : forall y t z, targets !! y = Some t -> t_inherit t = true ->
  ("target", z) ∈ t_deps t -> rank z < rank y.

(** Every cached target is done: it is a target, and when it inherits,
    each of its target dependencies is cached with a subset of its
    paths. *)
Definition inv (st : state) : Prop :=
  forall y, y ∈ st.2 -> exists t, targets !! y = Some t /\
    (t_inherit t = true -> forall z, ("target", z) ∈ t_deps t ->
       z ∈ st.2 /\ paths_of st.1 z ⊆ paths_of st.1 y).

(** What a call rooted at [x] may do: cache more names, of rank at most
    [rank x]; grow sets; never touch a cached set or one of a higher
    rank. *)
Definition frame (x : string) (st st' : state) : Prop :=
  st.2 ⊆ st'.2 /\
  (forall y, paths_of st.1 y ⊆ paths_of st'.1 y) /\
  (forall y, y ∈ st.2 -> paths_of st'.1 y = paths_of st.1 y) /\
  (forall y, rank x < rank y -> paths_of st'.1 y = paths_of st.1 y) /\
  (forall y, y ∈ st'.2 -> y ∉ st.2 -> rank y <= rank x).

Lemma frame_refl (x : string) (st : state) : frame x st st.
Proof. repeat split; try done. Qed.

Lemma frame_trans (x : string) (st1 st2 st3 : state) :
  frame x st1 st2 -> frame x st2 st3 -> frame x st1 st3.
Proof.
  intros (Hm1 & Hg1 & Hf1 & Hr1 & Hn1) (Hm2 & Hg2 & Hf2 & Hr2 & Hn2).
  split; [set_solver|]. split; [intros y; specialize (Hg1 y); specialize (Hg2 y); set_solver|].
  split; [intros y Hy; rewrite Hf2 by set_solver; by apply Hf1|].
  split; [intros y Hy; rewrite Hr2 by done; by apply Hr1|].
  intros y Hy3 Hy1. destruct (decide (y ∈ st2.2)) as [Hy2|Hy2]; [by apply Hn1|].
  by apply Hn2.
Qed.

Lemma frame_lower (n x : string) (st st' : state) :
  rank n <= rank x -> frame n st st' -> frame x st st'.
Proof.
  intros Hnx (Hm & Hg & Hf & Hr & Hn). repeat split; try done.
  - intros y Hy. apply Hr. lia.
  - intros y H1 H2. specialize (Hn y H1 H2). lia.
Qed.

Lemma inv_ext (p p' : store) (m : gset string) :
  (forall y, paths_of p' y = paths_of p y) -> inv (p, m) -> inv (p', m).
Proof.
  intros Hp Hi y Hy. destruct (Hi y Hy) as (t & Ht & Hd). exists t. split; [done|].
  intros Hin z Hz. simpl. rewrite !Hp. by apply Hd.
Qed.

Lemma update_outputs_cons (get : string -> state -> option (gset string * state))
    (x ty n : string) (ds : list (string * string)) (st : state) :
  update_outputs get x ((ty, n) :: ds) st =
    if String.eqb ty "target" then
      match get n st with
      | None => None
      | Some (s, (paths1, memo1)) =>
          update_outputs get x ds (<[x := paths_of paths1 x ∪ s]> paths1, memo1)
      end
    else update_outputs get x ds st.
Proof. reflexivity. Qed.

Lemma update_outputs_spec (get : string -> state -> option (gset string * state)) (x : string) :
  (forall n st s st', get n st = Some (s, st') -> inv st ->
     frame n st st' /\ n ∈ st'.2 /\ s = paths_of st'.1 n /\ inv st') ->
  forall ds st st1,
  (forall z, ("target", z) ∈ ds -> rank z < rank x) ->
  update_outputs get x ds st = Some st1 -> inv st -> x ∉ st.2 ->
  frame x st st1 /\ (x ∉ st1.2) /\ inv st1 /\
  (forall z, (z ∈ st.2 /\ paths_of st.1 z ⊆ paths_of st.1 x) \/ ("target", z) ∈ ds ->
     z ∈ st1.2 /\ paths_of st1.1 z ⊆ paths_of st1.1 x).
Proof.
  intros Hget ds. induction ds as [|[ty n] ds IH]; intros [p m] st1 Hrk Hu Hi Hx.
  - injection Hu as <-. split; [apply frame_refl|]. split; [done|]. split; [done|].
    intros z [Hz|Hz]; [done|]. by apply elem_of_nil in Hz.
  - rewrite update_outputs_cons in Hu.
    destruct (String.eqb_spec ty "target") as [->|Hty].
    + destruct (get n (p, m)) as [[s [p1 m1]]|] eqn:Hg; [|discriminate].
      destruct (Hget _ _ _ _ Hg Hi) as (Hfr & Hn & -> & Hi1).
      assert (Hnx : rank n < rank x) by (apply Hrk; by left).
      destruct Hfr as (Hm & Hgr & Hf & Hr & Hnew). cbn [fst snd] in *.
      assert (Hx1 : x ∉ m1).
      { intros Hx1. assert (rank x <= rank n) by (by apply Hnew). lia. }
      assert (Hxn : x <> n) by (intros ->; lia).
      set (st2 := (<[x := paths_of p1 x ∪ paths_of p1 n]> p1, m1)).
      assert (Hfr2 : frame x (p, m) st2).
      { split; [done|]. split.
        { intros y. unfold st2; cbn [fst]. destruct (decide (x = y)) as [<-|Hne].
          - rewrite paths_of_insert_eq. specialize (Hgr x). set_solver.
          - rewrite paths_of_insert_ne by done. apply Hgr. }
        split.
        { intros y Hy. unfold st2; cbn [fst]. rewrite paths_of_insert_ne by set_solver.
          by apply Hf. }
        split.
        { intros y Hy. unfold st2; cbn [fst]. rewrite paths_of_insert_ne by (intros ->; lia).
          apply Hr. lia. }
        intros y Hy1 Hy0. specialize (Hnew y Hy1 Hy0). lia. }
      assert (Hi2 : inv st2).
      { intros y Hy. destruct (Hi1 y Hy) as (t & Ht & Hd). exists t. split; [done|].
        intros Hin z Hz. destruct (Hd Hin z Hz) as [Hzm Hsub]. split; [done|].
        unfold st2; cbn [fst].
        rewrite !paths_of_insert_ne by set_solver. done. }
      destruct (IH st2 st1) as (Hfr3 & Hx3 & Hi3 & Hd3);
        [intros z Hz; apply Hrk; by right|done|done|done|].
      split; [by eapply frame_trans|]. split; [done|]. split; [done|].
      intros z Hz. apply Hd3. unfold st2; cbn [fst snd].
      destruct Hz as [[Hz Hzs]|Hz].
      * left. split; [set_solver|].
        rewrite paths_of_insert_eq, paths_of_insert_ne by set_solver.
        rewrite (Hf z Hz). specialize (Hgr x). set_solver.
      * apply elem_of_cons in Hz as [[= ->]|Hz]; [left|by right].
        split; [done|]. rewrite paths_of_insert_eq, paths_of_insert_ne by done. set_solver.
    + destruct (IH (p, m) st1) as (Hfr3 & Hx3 & Hi3 & Hd3);
        [intros z Hz; apply Hrk; by right|done|done|done|].
      split; [done|]. split; [done|]. split; [done|].
      intros z Hz. apply Hd3. destruct Hz as [Hz|Hz]; [by left|].
      apply elem_of_cons in Hz as [Hz|Hz]; [injection Hz; congruence|by right].
Qed.

Lemma get_outputs_spec (fuel : nat) :
  forall x st s st', get_outputs targets fuel x st = Some (s, st') -> inv st ->
    frame x st st' /\ x ∈ st'.2 /\ s = paths_of st'.1 x /\ inv st'.
Proof.
  induction fuel as [|fuel IH]; intros x [p m] s st' H Hi; [discriminate|].
  cbn [get_outputs] in H.
  destruct (decide (x ∈ m)) as [Hxm|Hxm].
  - injection H as <- <-. split; [apply frame_refl|]. done.
  - destruct (targets !! x) as [t|] eqn:Ht; [|discriminate].
    assert (Hupd : forall p2 m2,
      (if t_inherit t then update_outputs (get_outputs targets fuel) x (t_deps t) (p, m)
       else Some (p, m)) = Some (p2, m2) ->
      frame x (p, m) (p2, m2) /\ (x ∉ m2) /\ inv (p2, m2) /\
      (t_inherit t = true -> forall z, ("target", z) ∈ t_deps t ->
         z ∈ m2 /\ paths_of p2 z ⊆ paths_of p2 x)).
    { intros p2 m2 Hu. destruct (t_inherit t) eqn:Hin.
      - destruct (update_outputs_spec (get_outputs targets fuel) x IH (t_deps t) (p, m) (p2, m2))
          as (Hf & Hx2 & Hi2 & Hd); try done.
        + intros z Hz. by apply (Hdag x t z).
        + split; [done|]. split; [done|]. split; [done|].
          intros _ z Hz. apply Hd. by right.
      - injection Hu as <- <-. split; [apply frame_refl|]. done. }
    destruct (if t_inherit t then _ else _) as [[p2 m2]|] eqn:Hu; [|discriminate].
    injection H as <- <-.
    destruct (Hupd p2 m2 eq_refl) as ((Hm & Hg & Hfz & Hr & Hn) & Hx2 & Hi2 & Hd).
    cbn [fst snd] in *.
    split.
    { split; [cbn; set_solver|]. split; [done|]. split; [done|]. split; [done|].
      intros y Hy1 Hy0. cbn [snd] in *. apply elem_of_union in Hy1 as [Hy1|Hy1].
      - apply elem_of_singleton in Hy1 as ->. done.
      - by apply Hn. }
    cbn [fst snd]. split; [set_solver|]. split; [done|].
    intros y Hy. cbn [snd] in Hy. apply elem_of_union in Hy as [Hy|Hy].
    + apply elem_of_singleton in Hy as ->. exists t. split; [done|].
      intros Hin z Hz. destruct (Hd Hin z Hz) as [Hz1 Hz2]. cbn [fst snd].
      split; [set_solver|done].
    + destruct (Hi2 y Hy) as (t' & Ht' & Hd'). exists t'. split; [done|].
      intros Hin z Hz. destruct (Hd' Hin z Hz) as [Hz1 Hz2]. cbn [fst snd] in *.
      split; [set_solver|done].
Qed.

Lemma finalize_spec (fuel : nat) (names : list string) :
  forall st final, finalize targets fuel names st = Some final -> inv st ->
    exists memo, inv (final, memo) /\ st.2 ⊆ memo /\
      (forall y, paths_of st.1 y ⊆ paths_of final y) /\
      (forall y t, y ∈ names -> targets !! y = Some t -> t_inherit t = true -> y ∈ memo).
Proof.
  induction names as [|x names IH]; intros [p m] final H Hi.
  - injection H as <-. exists m. split; [done|]. split; [done|]. split; [done|].
    intros y t Hy. by apply elem_of_nil in Hy.
  - cbn [finalize] in H. destruct (targets !! x) as [t|] eqn:Ht; [|discriminate].
    destruct (t_inherit t) eqn:Hin.
    + destruct (get_outputs targets fuel x (p, m)) as [[s [p1 m1]]|] eqn:Hg; [|discriminate].
      destruct (get_outputs_spec fuel x (p, m) s (p1, m1) Hg Hi)
        as ((Hm & Hgr & _ & _ & _) & Hx1 & -> & Hi1).
      cbn [fst snd] in *.
      assert (Hsame : forall y, paths_of (<[x := paths_of p1 x]> p1) y = paths_of p1 y).
      { intros y. destruct (decide (x = y)) as [<-|Hne].
        - by rewrite paths_of_insert_eq.
        - by rewrite paths_of_insert_ne. }
      destruct (IH _ final H) as (memo & Hinv & Hsub & Hgrow & Hall).
      { by apply (inv_ext p1). }
      exists memo. split; [done|]. cbn [fst snd] in *. split; [set_solver|]. split.
      * intros y. specialize (Hgrow y). rewrite Hsame in Hgrow. specialize (Hgr y). set_solver.
      * intros y t' Hy Ht' Hin'. apply elem_of_cons in Hy as [->|Hy]; [set_solver|].
        by apply (Hall y t').
    + destruct (IH _ final H Hi) as (memo & Hinv & Hsub & Hgrow & Hall).
      exists memo. split; [done|]. split; [done|]. split; [done|].
      intros y t' Hy Ht' Hin'. apply elem_of_cons in Hy as [->|Hy]; [congruence|].
      by apply (Hall y t').
Qed.
End Frame.

(** C9: when the target dependency graph is a DAG (a rank decreasing
    along the target dependencies of inheriting targets) and output
    post-processing succeeds, every target's final [outputs.paths]
    contains its paths from before post-processing (so its declared
    paths), and every inheriting target's final [outputs.paths] contains
    the final [outputs.paths] of each of its [target]-kind dependencies,
    hence, through this fixpoint inclusion, those of its transitive
    target dependencies. *)
Theorem inherit_outputs_superset (targets : gmap string tgt) (rank : string -> nat)
    (fuel : nat) (names : list string) (declared final : store) :
  (forall y t z, targets !! y = Some t -> t_inherit t = true ->
     ("target", z) ∈ t_deps t -> rank z < rank y) ->
  post_process_outputs targets fuel names declared = Some final ->
  (forall y, paths_of declared y ⊆ paths_of final y) /\
  (forall y t z, y ∈ names -> targets !! y = Some t -> t_inherit t = true ->
     ("target", z) ∈ t_deps t -> paths_of final z ⊆ paths_of final y).
Proof.
  intros Hdag H.
  destruct (finalize_spec targets rank Hdag fuel names (declared, ∅) final H)
    as (memo & Hinv & _ & Hgrow & Hall).
  { intros y Hy. by apply not_elem_of_empty in Hy. }
  split; [done|].
  intros y t z Hy Ht Hin Hz.
  destruct (Hinv y (Hall y t Hy Ht Hin)) as (t' & Ht' & Hd).
  rewrite Ht in Ht'. injection Ht' as <-.
  by apply (Hd Hin z Hz).
Qed.

(** The targets of the test fixture: [quack:test:child] inherits the
    outputs of [quack:test]. *)
Definition demo_targets : gmap string tgt :=
  {[ "quack:test" := mk_tgt false [("global", "command:quack")];
     "quack:test:child" := mk_tgt true [("target", "quack:test")] ]}.

Definition demo_declared : store :=
  {[ "quack:test" := {[ "/tmp/quack-output" ]};
     "quack:test:child" := {[ "/tmp/child-output" ]} ]}.

Definition demo_rank (n : string) : nat := if String.eqb n "quack:test:child" then 1 else 0.

Lemma inherit_outputs_superset_witness :
  paths_of (default ∅ (post_process_outputs demo_targets 10
                        ["quack:test"; "quack:test:child"] demo_declared))
           "quack:test"
    ⊆ paths_of (default ∅ (post_process_outputs demo_targets 10
                        ["quack:test"; "quack:test:child"] demo_declared))
           "quack:test:child".
Proof.
  assert (Hdag : forall y t z, demo_targets !! y = Some t -> t_inherit t = true ->
            ("target", z) ∈ t_deps t -> demo_rank z < demo_rank y).
  { intros y t z Hy Hin Hz. unfold demo_targets in Hy.
    apply lookup_insert_Some in Hy as [[<- <-]|[Hne Hy]]; [discriminate|].
    apply lookup_singleton_Some in Hy as [<- <-].
    apply list_elem_of_singleton in Hz. injection Hz as ->.
    vm_compute. lia. }
  destruct (post_process_outputs demo_targets 10 ["quack:test"; "quack:test:child"] demo_declared)
    as [final|] eqn:Hpp.
  - exact (proj2 (inherit_outputs_superset demo_targets demo_rank 10
                    ["quack:test"; "quack:test:child"] demo_declared final Hdag Hpp)
            "quack:test:child" (mk_tgt true [("target", "quack:test")]) "quack:test"
            ltac:(right; left) eq_refl eq_refl ltac:(left)).
  - vm_compute in Hpp. discriminate.
Defined.
End OutputsFacts.

Module TargetInitFacts.
Import TargetInit.

(** The number of ["global"]-typed dicts in a list. *)
Definition count_global (l : list ddict) : nat :=
  length (List.filter (fun d => String.eqb (d_type d) "global") l).

Lemma count_global_app (l1 l2 : list ddict) :
  count_global (l1 ++ l2) = count_global l1 + count_global l2.
Proof. unfold count_global. by rewrite List.filter_app, length_app. Qed.

Lemma count_global_insert_at (i : nat) (g : ddict) (l : list ddict) :
  count_global l <= count_global (insert_at i g l).
Proof.
  unfold insert_at. rewrite <- (take_drop i l) at 1.
  rewrite !count_global_app.
  change (g :: drop i l) with ([g] ++ drop i l). rewrite count_global_app. lia.
Qed.

Lemma count_global_remove (x : ddict) (l : list ddict) (i : nat) :
  String.eqb (d_type x) "global" = true -> index_of x l = Some i ->
  S (count_global (remove_first x l)) = count_global l.
Proof.
  intros Hx. revert i. induction l as [|y l IH]; intros i Hi; [discriminate|].
  simpl in Hi |- *. destruct (decide (y = x)) as [->|Hne].
  - unfold count_global. simpl. by rewrite Hx.
  - destruct (index_of x l) as [j|] eqn:Hj; [|discriminate].
    specialize (IH j eq_refl). unfold count_global in *. simpl.
    destruct (String.eqb (d_type y) "global"); simpl; lia.
Qed.

Lemma resolve_count (gd : gmap string ddict) (todo : list ddict) :
  forall cur final, resolve_globals gd todo cur = inr final ->
    count_global cur <= count_global final + count_global todo.
Proof.
  induction todo as [|dep todo IH]; intros cur final H.
  - injection H as <-. change (count_global []) with 0. lia.
  - cbn [resolve_globals] in H.
    destruct (index_of dep cur) as [i|] eqn:Hi; [|discriminate].
    destruct (String.eqb (d_type dep) "global") eqn:Hg.
    + destruct (d_name dep ≫= _) as [g|]; [|discriminate].
      specialize (IH _ _ H).
      pose proof (count_global_remove dep cur i Hg Hi).
      pose proof (count_global_insert_at i g (remove_first dep cur)).
      assert (Hc : count_global (dep :: todo) = S (count_global todo))
        by (unfold count_global; simpl; by rewrite Hg).
      rewrite Hc. lia.
    + specialize (IH _ _ H).
      assert (Hc : count_global (dep :: todo) = count_global todo)
        by (unfold count_global; simpl; by rewrite Hg).
      rewrite Hc. lia.
Qed.

Lemma resolve_keeps_head (gd : gmap string ddict) (G : ddict) (todo : list ddict) :
  String.eqb (d_type G) "global" = false ->
  forall r final, resolve_globals gd todo (G :: r) = inr final ->
    exists rest, final = G :: rest.
Proof.
  intros HG. induction todo as [|dep todo IH]; intros r final H.
  - injection H as <-. by exists r.
  - cbn [resolve_globals] in H.
    destruct (index_of dep (G :: r)) as [i|] eqn:Hi; [|discriminate].
    destruct (String.eqb (d_type dep) "global") eqn:Hg.
    + assert (HGd : G <> dep) by (intros ->; congruence).
      cbn [index_of] in Hi. rewrite decide_False in Hi by done.
      destruct (index_of dep r) as [j|]; [|discriminate]. simpl in Hi. injection Hi as <-.
      cbn [remove_first] in H. rewrite decide_False in H by done.
      destruct (d_name dep ≫= _) as [g|]; [|discriminate].
      apply (IH (insert_at j g (remove_first dep r))). exact H.
    + by apply (IH r).
Qed.

Lemma convert_not_global (d : ddict) (x : dependency) :
  convert d = inr x -> String.eqb (d_type d) "global" = false.
Proof.
  unfold convert.
  destruct (String.eqb_spec (d_type d) "command") as [->|_]; [done|].
  destruct (String.eqb_spec (d_type d) "source") as [->|_]; [done|].
  destruct (String.eqb_spec (d_type d) "target") as [->|_]; [done|].
  destruct (String.eqb_spec (d_type d) "variable") as [->|_]; [done|].
  discriminate.
Qed.

Lemma convert_all_count (l : list ddict) (ds : list dependency) :
  convert_all l = inr ds -> count_global l = 0.
Proof.
  revert ds. induction l as [|d l IH]; intros ds H; [done|].
  simpl in H. destruct (convert d) as [|x] eqn:Hc; [discriminate|].
  destruct (convert_all l) as [|xs]; [discriminate|].
  unfold count_global. simpl. rewrite (convert_not_global d x Hc).
  by apply (IH xs).
Qed.

(** C10: [Target.__init__] always puts the global dependency named
    [source:quack] first: when it succeeds, the first dependency of the
    target is the conversion of [spec.global_dependencies["source:quack"]],
    whatever the target declares; when the spec defines no global
    dependency named [source:quack], it raises [SpecError]. *)
Theorem target_dependencies_source_quack_first
    (global_dependencies : gmap string ddict) (declared : list ddict) :
  (forall deps, target_dependencies global_dependencies declared = inr deps ->
     exists g d, global_dependencies !! "source:quack" = Some g /\
                 convert g = inr d /\ head deps = Some d) /\
  (global_dependencies !! "source:quack" = None ->
     target_dependencies global_dependencies declared = inl SpecError).
Proof.
  unfold target_dependencies. cbn [resolve_globals index_of remove_first].
  rewrite !decide_True by done. simpl.
  split.
  - intros deps H.
    destruct (global_dependencies !! "source:quack") as [G|] eqn:HG; [|discriminate].
    unfold insert_at in H. simpl in H. rewrite drop_0 in H.
    destruct (resolve_globals global_dependencies declared (G :: declared)) as [|final] eqn:Hr;
      [discriminate|].
    destruct (String.eqb (d_type G) "global") eqn:HGg.
    + exfalso. pose proof (resolve_count _ _ _ _ Hr) as Hc.
      rewrite (convert_all_count final deps H) in Hc.
      assert (H1 : count_global (G :: declared) = S (count_global declared))
        by (unfold count_global; simpl; by rewrite HGg).
      lia.
    + destruct (resolve_keeps_head _ _ _ HGg _ _ Hr) as [rest ->].
      simpl in H. destruct (convert G) as [|d] eqn:Hc; [discriminate|].
      destruct (convert_all rest) as [|xs]; [discriminate|].
      injection H as <-. by exists G, d.
  - intros HG. by rewrite HG.
Qed.

Definition demo_globals : gmap string ddict :=
  {[ "source:quack" := mk_ddict "source" (Some "source:quack") "paths: ^quack.yaml$";
     "command:quack" := mk_ddict "command" (Some "command:quack") "commands: echo -n 1" ]}.

Definition demo_declared : list ddict := [mk_ddict "global" (Some "command:quack") ""].

Definition demo_resolved : list dependency :=
  [DepSource (mk_ddict "source" (Some "source:quack") "paths: ^quack.yaml$");
   DepCommand (mk_ddict "command" (Some "command:quack") "commands: echo -n 1")].

Lemma target_dependencies_source_quack_first_witness :
  (exists g d, demo_globals !! "source:quack" = Some g /\ convert g = inr d /\
     head demo_resolved = Some d) /\
  target_dependencies (delete "source:quack" demo_globals) demo_declared = inl SpecError.
Proof.
  split.
  - apply (proj1 (target_dependencies_source_quack_first demo_globals demo_declared)).
    vm_compute. reflexivity.
  - apply (proj2 (target_dependencies_source_quack_first (delete "source:quack" demo_globals)
                    demo_declared)).
    vm_compute. reflexivity.
Defined.
End TargetInitFacts.

Module EngineExtra.
Import Target Engine.

Section Run.
Variable targets : gmap string target.
Variable backend : backend_type.
Variable build_ok save_ok : string -> bool.

(** The [prepare_deps] loop of [execute] over this section's parameters. *)
Local Abbreviation prepare_deps := (EngineFacts.prepare_deps targets backend build_ok save_ok).

(** [w'] extends [w]: no cache entry lost, the trace only appended to. *)
Definition grows (w w' : world) : Prop :=
  entries w ⊆ entries w' /\ exists l, trace w' = trace w ++ l.

Definition outcome_grows (w : world) (o : outcome) : Prop :=
  match o with
  | Ok w' | Exit _ w' | Raised _ w' => grows w w'
  | OutOfFuel => True
  end.

Lemma grows_refl (w : world) : grows w w.
Proof. split; [done|]. exists []. by rewrite app_nil_r. Qed.

Lemma grows_trans (w1 w2 w3 : world) : grows w1 w2 -> grows w2 w3 -> grows w1 w3.
Proof.
  intros [H1 [l1 Hl1]] [H2 [l2 Hl2]]. split; [set_solver|].
  exists (l1 ++ l2). by rewrite Hl2, Hl1, app_assoc.
Qed.

Lemma outcome_grows_trans (w1 w2 : world) (o : outcome) :
  grows w1 w2 -> outcome_grows w2 o -> outcome_grows w1 o.
Proof. destruct o; simpl; eauto using grows_trans. Qed.

Lemma grows_load (t : target) (w : world) : grows w (cache_load t w).
Proof. split; [done|]. by eexists. Qed.

Lemma grows_build (t : target) (w : world) : grows w (build t w).
Proof. split; [done|]. by eexists. Qed.

Lemma grows_save (t : target) (w : world) : grows w (cache_save backend t w).
Proof.
  split; [|by eexists]. unfold cache_save. simpl. destruct backend; set_solver.
Qed.

Lemma prepare_deps_grows (fuel : nat) :
  (forall mode t w, outcome_grows w (execute targets backend build_ok save_ok fuel mode t w)) ->
  forall ds w, outcome_grows w (prepare_deps fuel ds w).
Proof.
  intros IH ds. induction ds as [|d ds IHds]; intros w; simpl.
  - apply grows_refl.
  - destruct (targets !! d) as [td|]; [|apply grows_refl].
    specialize (IH NORMAL td w).
    destruct (execute _ _ _ _ fuel NORMAL td w) eqn:He; simpl in *; try done.
    eapply outcome_grows_trans; [exact IH|]. apply IHds.
Qed.

Lemma execute_grows_all (fuel : nat) :
  forall mode t w, outcome_grows w (execute targets backend build_ok save_ok fuel mode t w).
Proof.
  induction fuel as [|fuel IH]; intros mode t w; [done|].
  pose proof (prepare_deps_grows fuel IH) as Hp.
  rewrite EngineFacts.execute_S. destruct mode; cbv zeta.
  - destruct (is_serve backend) eqn:Hs.
    + pose proof (Hp (target_deps t) w) as Hp1.
      destruct (prepare_deps fuel (target_deps t) w) as [w1|c w1|e w1|] eqn:H1;
        simpl in *; try done.
      destruct (cache_hit backend t w).
      * eapply grows_trans; [exact Hp1|]. apply grows_load.
      * destruct (build_ok (name t)); simpl.
        -- destruct (save_ok (name t)); simpl.
           ++ eapply grows_trans; [exact Hp1|]. eapply grows_trans; [apply grows_build|]. apply grows_save.
           ++ eapply grows_trans; [exact Hp1|]. apply grows_build.
        -- done.
    + destruct (cache_hit backend t w).
      * apply grows_load.
      * pose proof (Hp (target_deps t) w) as Hp1.
        destruct (prepare_deps fuel (target_deps t) w) as [w2|c w2|e w2|] eqn:H2;
          simpl in *; try done.
        destruct (build_ok (name t)); simpl.
        -- destruct (save_ok (name t)); simpl.
           ++ eapply grows_trans; [exact Hp1|]. eapply grows_trans; [apply grows_build|]. apply grows_save.
           ++ eapply grows_trans; [exact Hp1|]. apply grows_build.
        -- done.
  - apply Hp.
  - destruct (cache_hit backend t w); simpl; [apply grows_load|apply grows_refl].
Qed.


(** X1: [Target.execute] in [NORMAL] mode on a backend other than Raw: when
    it returns normally, the cache holds the target's entry (loaded on a
    hit, saved on a miss). *)
Lemma execute_normal_ok_entry (fuel : nat) (t : target) (w w' : world) :
  backend <> Raw ->
  execute targets backend build_ok save_ok fuel NORMAL t w = Ok w' ->
  key t ∈ entries w'.
Proof.
  intros Hb H. destruct fuel as [|fuel]; [discriminate|].
  pose proof (prepare_deps_grows fuel (execute_grows_all fuel)) as Hp.
  rewrite EngineFacts.execute_S in H. cbv zeta in H.
  assert (Hhit : cache_hit backend t w = true -> key t ∈ entries w).
  { unfold cache_hit. destruct backend; try done; intros Hc; by apply bool_decide_eq_true in Hc. }
  destruct (cache_hit backend t w) eqn:Hc.
  - specialize (Hhit eq_refl).
    destruct (is_serve backend).
    + pose proof (Hp (target_deps t) w) as Hp1.
      destruct (prepare_deps fuel (target_deps t) w) as [w1|c w1|e w1|];
        simpl in *; try discriminate.
      injection H as <-. simpl. destruct Hp1 as [Hsub _]. set_solver.
    + injection H as <-. simpl. done.
  - assert (Hsave : forall w3, key t ∈ entries (cache_save backend t w3)).
    { intros w3. unfold cache_save. simpl. destruct backend; try done; set_solver. }
    destruct (is_serve backend).
    + destruct (prepare_deps fuel (target_deps t) w) as [w1|c w1|e w1|];
        simpl in *; try discriminate.
      destruct (build_ok (name t)); simpl in H; [|discriminate].
      destruct (save_ok (name t)); [|discriminate]. injection H as <-. apply Hsave.
    + destruct (prepare_deps fuel (target_deps t) w) as [w1|c w1|e w1|];
        simpl in *; try discriminate.
      destruct (build_ok (name t)); simpl in H; [|discriminate].
      destruct (save_ok (name t)); [|discriminate]. injection H as <-. apply Hsave.
Qed.

(** X2: [cli.execute_target] records a checksum row only after the execution
    returned normally, with a database, in a CI merge-group pipeline; the
    one row carries the CI fields and the target's checksum, which in
    [LOAD_ONLY] mode is the one read from the database. *)
Lemma execute_target_recorded (fuel : nat) (app_name target_name : string)
    (mode : TargetExecutionMode) (db : option (list TargetChecksum))
    (ci : CIEnvironment) (job_name : string) (w : world)
    (o : outcome) (rows : list TargetChecksum) :
  execute_target targets backend build_ok save_ok fuel app_name target_name mode db ci
    job_name w = (o, rows) ->
  rows <> [] ->
  (exists w', o = Ok w') /\ is_Some db /\ is_ci ci = true /\ is_merge_group ci = true /\
  (exists t0 c,
    targets !! target_name = Some t0 /\
    rows = [mk_checksum_row app_name (commit_sha ci) (pr_id ci) (pipeline_id ci)
              (ci_job_name ci) (name t0) c] /\
    (mode = LOAD_ONLY -> (exists db_rows row,
        db = Some db_rows /\
        query_checksum db_rows app_name (commit_sha ci) job_name target_name = Some row /\
        c = row_checksum row)) /\
    (mode <> LOAD_ONLY -> c = checksum_value t0)).
Proof.
  intros H Hne. unfold execute_target, get_by_job, get_by_name in H.
  destruct mode.
  - destruct (targets !! target_name) as [t0|] eqn:Ht; [|by injection H as _ <-].
    destruct (execute _ _ _ _ fuel NORMAL t0 w) as [w'|c w'|[] w'|];
      try (by injection H as _ <-).
    destruct (bool_decide (is_Some db) && is_ci ci && is_merge_group ci) eqn:Hc;
      [|by injection H as _ <-].
    apply andb_prop in Hc as [Hc Hm]. apply andb_prop in Hc as [Hd Hci].
    apply bool_decide_eq_true in Hd.
    injection H as <- <-. split; [eauto|]. do 3 (split; [done|]).
    exists t0, (checksum_value t0). do 2 (split; [done|]). split; [discriminate|done].
  - destruct (targets !! target_name) as [t0|] eqn:Ht; [|by injection H as _ <-].
    destruct (execute _ _ _ _ fuel DEPS_ONLY t0 w) as [w'|c w'|[] w'|];
      try (by injection H as _ <-).
    destruct (bool_decide (is_Some db) && is_ci ci && is_merge_group ci) eqn:Hc;
      [|by injection H as _ <-].
    apply andb_prop in Hc as [Hc Hm]. apply andb_prop in Hc as [Hd Hci].
    apply bool_decide_eq_true in Hd.
    injection H as <- <-. split; [eauto|]. do 3 (split; [done|]).
    exists t0, (checksum_value t0). do 2 (split; [done|]). split; [discriminate|done].
  - destruct db as [db_rows|]; [|by injection H as _ <-].
    destruct (query_checksum db_rows app_name (commit_sha ci) job_name target_name)
      as [row|] eqn:Hq; [|by injection H as _ <-].
    destruct (targets !! target_name) as [t0|] eqn:Ht; [|by injection H as _ <-].
    destruct (execute _ _ _ _ fuel LOAD_ONLY _ w) as [w'|c w'|[] w'|];
      try (by injection H as _ <-).
    destruct (bool_decide (is_Some (Some db_rows)) && is_ci ci && is_merge_group ci) eqn:Hc;
      [|by injection H as _ <-].
    apply andb_prop in Hc as [Hc Hm]. apply andb_prop in Hc as [Hd Hci].
    injection H as <- <-. split; [eauto|]. do 3 (split; [done|]).
    exists t0, (row_checksum row). do 2 (split; [done|]). split; [|done].
    intros _. eauto.
Qed.

End Run.
Definition solo_target : target := mk_target "t" "0000" [].

Lemma execute_normal_ok_entry_witness :
  execute ∅ Local (fun _ => true) (fun _ => true) 1 NORMAL solo_target (mk_world ∅ []) =
    Ok (cache_save Local solo_target (build solo_target (mk_world ∅ []))) /\
  key solo_target ∈ entries (cache_save Local solo_target (build solo_target (mk_world ∅ []))).
Proof.
  split; [reflexivity|].
  apply (execute_normal_ok_entry ∅ Local (fun _ => true) (fun _ => true) 1 solo_target
           (mk_world ∅ [])); [discriminate|reflexivity].
Defined.

Lemma execute_target_recorded_witness :
  exists o rows,
    execute_target {[ "t" := solo_target ]} Local (fun _ => true) (fun _ => true) 1
      "app" "t" NORMAL (Some []) (mk_ci true true "abc123" "build" 7 9) "build"
      (mk_world ∅ []) = (o, rows) /\ rows <> [] /\
  (exists w', o = Ok w') /\ is_Some (Some (@nil TargetChecksum)) /\
  is_ci (mk_ci true true "abc123" "build" 7 9) = true /\
  is_merge_group (mk_ci true true "abc123" "build" 7 9) = true /\
  (exists t0 c,
    ({[ "t" := solo_target ]} : gmap string target) !! "t" = Some t0 /\
    rows = [mk_checksum_row "app" "abc123" 7 9 "build" (name t0) c] /\
    (NORMAL = LOAD_ONLY -> (exists db_rows row,
        Some (@nil TargetChecksum) = Some db_rows /\
        query_checksum db_rows "app" "abc123" "build" "t" = Some row /\
        c = row_checksum row)) /\
    (NORMAL <> LOAD_ONLY -> c = checksum_value t0)).
Proof.
  do 2 eexists. split; [reflexivity|]. split; [discriminate|].
  apply (execute_target_recorded {[ "t" := solo_target ]} Local (fun _ => true) (fun _ => true)
           1 "app" "t" NORMAL (Some []) (mk_ci true true "abc123" "build" 7 9) "build"
           (mk_world ∅ [])); [reflexivity|discriminate].
Defined.

End EngineExtra.

Module DependencyExtra.
Import Dependency.

(** [str_ltb] is a strict total order. *)
Lemma str_ltb_irrefl (a : string) : str_ltb a a = false.
Proof.
  induction a as [|c a IH]; [done|]. simpl.
  rewrite Nat.ltb_irrefl, Nat.eqb_refl. done.
Qed.

Lemma str_ltb_asym (a b : string) : str_ltb a b = true -> str_ltb b a = false.
Proof.
  revert b. induction a as [|c a IH]; intros [|d b]; simpl; try done.
  destruct (Nat.ltb_spec (nat_of_ascii c) (nat_of_ascii d));
  destruct (Nat.ltb_spec (nat_of_ascii d) (nat_of_ascii c));
  destruct (Nat.eqb_spec (nat_of_ascii c) (nat_of_ascii d));
  destruct (Nat.eqb_spec (nat_of_ascii d) (nat_of_ascii c)); try lia; auto.
Qed.

Lemma str_ltb_trans (a b c : string) :
  str_ltb a b = true -> str_ltb b c = true -> str_ltb a c = true.
Proof.
  revert b c. induction a as [|x a IH]; intros [|y b] [|z c]; simpl; try done.
  destruct (Nat.ltb_spec (nat_of_ascii x) (nat_of_ascii y));
  destruct (Nat.eqb_spec (nat_of_ascii x) (nat_of_ascii y));
  destruct (Nat.ltb_spec (nat_of_ascii y) (nat_of_ascii z));
  destruct (Nat.eqb_spec (nat_of_ascii y) (nat_of_ascii z));
  destruct (Nat.ltb_spec (nat_of_ascii x) (nat_of_ascii z));
  destruct (Nat.eqb_spec (nat_of_ascii x) (nat_of_ascii z)); try lia; try done.
  eauto.
Qed.

Lemma str_ltb_total (a b : string) :
  a <> b -> str_ltb a b = true \/ str_ltb b a = true.
Proof.
  revert b. induction a as [|c a IH]; intros [|d b] Hne; simpl.
  - by destruct Hne.
  - by left.
  - by right.
  - destruct (Nat.ltb_spec (nat_of_ascii c) (nat_of_ascii d)); [by left|].
    destruct (Nat.ltb_spec (nat_of_ascii d) (nat_of_ascii c)); [by right|].
    assert (Hcd : nat_of_ascii c = nat_of_ascii d) by lia.
    rewrite Hcd, Nat.eqb_refl.
    assert (c = d) as <-.
    { rewrite <- (ascii_nat_embedding c), <- (ascii_nat_embedding d). by rewrite Hcd. }
    apply IH. congruence.
Qed.

Definition str_lt (a b : string) : Prop := str_ltb a b = true.

Lemma insert_sorted_perm (x : string) (l : list string) : insert_sorted x l ≡ₚ x :: l.
Proof.
  induction l as [|y l IH]; simpl; [done|].
  destruct (str_ltb x y); [done|]. rewrite IH. constructor.
Qed.

Lemma sorted_perm (xs : list string) : sorted xs ≡ₚ xs.
Proof.
  induction xs as [|x xs IH]; simpl; [done|].
  unfold sorted in *. simpl. rewrite insert_sorted_perm, IH. done.
Qed.

Lemma insert_sorted_sorted (x : string) (l : list string) :
  x ∉ l -> Sorted str_lt l -> Sorted str_lt (insert_sorted x l).
Proof.
  induction l as [|y l IH]; intros Hx Hs; simpl.
  - repeat constructor.
  - destruct (str_ltb x y) eqn:Hxy.
    + constructor; [done|]. by constructor.
    + assert (Hyx : str_lt y x).
      { destruct (str_ltb_total x y) as [H|H]; [|congruence|done].
        intros ->. apply Hx. by left. }
      apply Sorted_inv in Hs as [Hs Hh].
      constructor.
      * apply IH; [|done]. intros Hin. apply Hx. by right.
      * destruct l as [|z l]; simpl; [by constructor|].
        destruct (str_ltb x z); constructor; [done|].
        by inversion Hh.
Qed.

Lemma sorted_sorted (xs : list string) : NoDup xs -> Sorted str_lt (sorted xs).
Proof.
  induction xs as [|x xs IH]; intros Hnd; [constructor|].
  apply NoDup_cons in Hnd as [Hx Hnd].
  change (sorted (x :: xs)) with (insert_sorted x (sorted xs)).
  apply insert_sorted_sorted; [|by apply IH].
  by rewrite (sorted_perm xs).
Qed.

Section Matching.
Variable re_match : string -> string -> bool.
Variable path_exists : string -> bool.

(** A pattern counted for [f]: the first include or the first exclude
    pattern that matches it. *)
Definition counted_for (paths excludes : list string) (p f : string) : Prop :=
  path_exists f = true /\
  (first_match re_match paths f = Some p \/ first_match re_match excludes f = Some p).

Definition selected (paths excludes : list string) (f : string) : Prop :=
  path_exists f = true /\ is_Some (first_match re_match paths f) /\
  first_match re_match excludes f = None.

Lemma bump_nonzero (counts : gmap string nat) (p q : string) :
  default 0 (bump counts p !! q) <> 0 <-> q = p \/ default 0 (counts !! q) <> 0.
Proof.
  unfold bump. destruct (decide (p = q)) as [<-|Hne].
  - rewrite lookup_insert_eq. simpl. split; [by left|lia].
  - rewrite lookup_insert_ne by done. split; [by right|]. intros [->|H]; [done|done].
Qed.

Lemma scan_file_spec (paths excludes : list string) (counts : gmap string nat)
    (mf : gset string) (f : string) :
  let '(counts', mf') := scan_file re_match path_exists paths excludes (counts, mf) f in
  (forall g, g ∈ mf' <-> g ∈ mf \/ (g = f /\ selected paths excludes f)) /\
  (forall q, default 0 (counts' !! q) <> 0 <->
             default 0 (counts !! q) <> 0 \/ counted_for paths excludes q f).
Proof.
  unfold scan_file, selected, counted_for.
  destruct (path_exists f) eqn:He; simpl.
  - destruct (first_match re_match paths f) as [p|] eqn:Hp;
      destruct (first_match re_match excludes f) as [e|] eqn:He'; simpl.
    + split.
      * intros g. split; [by left|]. intros [H|(_ & _ & _ & H)]; [done|discriminate].
      * intros q. rewrite bump_nonzero, bump_nonzero. naive_solver.
    + split.
      * intros g. rewrite elem_of_union, elem_of_singleton. naive_solver.
      * intros q. rewrite bump_nonzero. naive_solver.
    + split.
      * intros g. split; [by left|]. intros [H|(_ & _ & [? H] & _)]; [done|discriminate].
      * intros q. rewrite bump_nonzero. naive_solver.
    + split.
      * intros g. split; [by left|]. intros [H|(_ & _ & [? H] & _)]; [done|discriminate].
      * intros q. naive_solver.
  - split.
    + intros g. split; [by left|]. intros [H|(_ & H & _)]; [done|discriminate].
    + intros q. split; [by left|]. intros [H|[H _]]; [done|discriminate].
Qed.

Lemma scan_fold_spec (paths excludes tracked : list string) (counts : gmap string nat)
    (mf : gset string) :
  let '(counts', mf') :=
    foldl (scan_file re_match path_exists paths excludes) (counts, mf) tracked in
  (forall g, g ∈ mf' <-> g ∈ mf \/ (g ∈ tracked /\ selected paths excludes g)) /\
  (forall q, default 0 (counts' !! q) <> 0 <->
             default 0 (counts !! q) <> 0 \/
             exists f, f ∈ tracked /\ counted_for paths excludes q f).
Proof.
  revert counts mf. induction tracked as [|f tracked IH]; intros counts mf; cbn [foldl].
  - split; intros.
    + set_solver.
    + split; [by left|]. intros [H|(f & Hf & _)]; [done|by apply elem_of_nil in Hf].
  - pose proof (scan_file_spec paths excludes counts mf f) as Hs.
    destruct (scan_file _ _ paths excludes (counts, mf) f) as [c1 m1].
    specialize (IH c1 m1).
    destruct (foldl (scan_file re_match path_exists paths excludes) (c1, m1) tracked)
      as [c2 m2].
    destruct Hs as [Hs1 Hs2]. destruct IH as [IH1 IH2]. simpl. split.
    + intros g. rewrite IH1, Hs1, elem_of_cons. naive_solver.
    + intros q. rewrite IH2, Hs2. split.
      * intros [[H|H]|(g & Hg & H)]; [by left|right; exists f; split; [left|]; done|].
        right. exists g. split; [by right|done].
      * intros [H|(g & Hg & H)]; [by do 2 left|].
        apply elem_of_cons in Hg as [->|Hg]; [left; by right|].
        right. by exists g.
Qed.

(** X3: [DependencyTypeSource.get_matched_files], when it returns: the files
    are exactly the tracked, existing files matched by an include and by
    no exclude pattern, without duplicates and in ascending order, and
    every pattern was the first matching one for some tracked file. *)
Lemma get_matched_files_selects (paths excludes tracked files : list string) :
  get_matched_files re_match path_exists paths excludes tracked = inr files ->
  (forall f, f ∈ files <-> f ∈ tracked /\ selected paths excludes f) /\
  NoDup files /\ Sorted str_lt files /\
  (forall q, q ∈ paths ++ excludes -> exists f, f ∈ tracked /\ counted_for paths excludes q f).
Proof.
  unfold get_matched_files.
  pose proof (scan_fold_spec paths excludes tracked ∅ ∅) as Hs.
  destruct (foldl _ _ tracked) as [counts mf].
  destruct Hs as [Hm Hc].
  destruct (List.find _ (paths ++ excludes)) as [p|] eqn:Hf; [discriminate|].
  intros H. injection H as <-.
  split; [|split; [|split]].
  - intros f. rewrite (sorted_perm (elements mf)), elem_of_elements, Hm. set_solver.
  - rewrite (sorted_perm (elements mf)). apply NoDup_elements.
  - apply sorted_sorted, NoDup_elements.
  - intros q Hq. apply list_elem_of_In in Hq.
    pose proof (List.find_none _ _ Hf q Hq) as Hz. simpl in Hz.
    apply Nat.eqb_neq in Hz. apply Hc in Hz as [Hz|Hz]; [|done].
    by rewrite lookup_empty in Hz.
Qed.

Lemma find_first {A} (P : A -> bool) (l : list A) (x : A) :
  List.find P l = Some x ->
  exists pre post, l = pre ++ x :: post /\ P x = true /\
    forall y, y ∈ pre -> P y = false.
Proof.
  induction l as [|y l IH]; simpl; [discriminate|].
  destruct (P y) eqn:Hy.
  - intros H. injection H as <-. exists [], l. split; [done|]. split; [done|].
    intros z Hz. by apply elem_of_nil in Hz.
  - intros H. destruct (IH H) as (pre & post & -> & Hx & Hpre).
    exists (y :: pre), post. split; [done|]. split; [done|].
    intros z Hz. apply elem_of_cons in Hz as [->|Hz]; [done|]. by apply Hpre.
Qed.

(** X4: [DependencyTypeSource.get_matched_files] raises [SpecError] for the
    first pattern, includes then excludes, that was never the first
    matching pattern of an existing tracked file. *)
Lemma get_matched_files_error_first_unused (paths excludes tracked : list string) (p : string) :
  get_matched_files re_match path_exists paths excludes tracked = inl p ->
  exists pre post, paths ++ excludes = pre ++ p :: post /\
  ~ (exists f, f ∈ tracked /\ counted_for paths excludes p f) /\
  (forall q, q ∈ pre -> exists f, f ∈ tracked /\ counted_for paths excludes q f).
Proof.
  unfold get_matched_files.
  pose proof (scan_fold_spec paths excludes tracked ∅ ∅) as Hs.
  destruct (foldl _ _ tracked) as [counts mf].
  destruct Hs as [Hm Hc].
  destruct (List.find _ (paths ++ excludes)) as [q|] eqn:Hf; [|discriminate].
  intros H. injection H as <-.
  apply find_first in Hf as (pre & post & Hl & Hz & Hpre).
  exists pre, post. split; [done|]. split.
  - intros Hex. apply Nat.eqb_eq in Hz.
    assert (Hnz : default 0 (counts !! q) <> 0) by (apply Hc; by right).
    done.
  - intros r Hr. specialize (Hpre r Hr). apply Nat.eqb_neq in Hpre.
    apply Hc in Hpre as [Hz'|Hz']; [|done]. by rewrite lookup_empty in Hz'.
Qed.

End Matching.
Lemma get_matched_files_selects_witness :
  get_matched_files String.eqb (fun _ => true) ["a"] [] ["b"; "a"] = inr ["a"] /\
  (forall f, f ∈ ["a"] <-> f ∈ ["b"; "a"] /\ selected String.eqb (fun _ => true) ["a"] [] f) /\
  NoDup ["a"] /\ Sorted str_lt ["a"] /\
  (forall q, q ∈ ["a"] ++ [] ->
     exists f, f ∈ ["b"; "a"] /\ counted_for String.eqb (fun _ => true) ["a"] [] q f).
Proof.
  split; [vm_compute; reflexivity|].
  apply (get_matched_files_selects String.eqb (fun _ => true) ["a"] [] ["b"; "a"] ["a"]).
  vm_compute. reflexivity.
Defined.

Lemma get_matched_files_error_first_unused_witness :
  get_matched_files String.eqb (fun _ => true) ["a"; "c"] [] ["a"] = inl "c" /\
  exists pre post, ["a"; "c"] ++ [] = pre ++ "c" :: post /\
  ~ (exists f, f ∈ ["a"] /\ counted_for String.eqb (fun _ => true) ["a"; "c"] [] "c" f) /\
  (forall q, q ∈ pre ->
     exists f, f ∈ ["a"] /\ counted_for String.eqb (fun _ => true) ["a"; "c"] [] q f).
Proof.
  split; [vm_compute; reflexivity|].
  apply (get_matched_files_error_first_unused String.eqb (fun _ => true) ["a"; "c"] [] ["a"] "c").
  vm_compute. reflexivity.
Defined.

End DependencyExtra.

Module VariableExtra.
Import Dependency VariableDep DependencyExtra.

Definition key_lt (x y : string * string) : Prop := str_ltb x.1 y.1 = true.

Lemma insert_by_key_perm (x : string * string) (l : list (string * string)) :
  insert_by_key x l ≡ₚ x :: l.
Proof.
  induction l as [|y l IH]; simpl; [done|].
  destruct (str_ltb y.1 x.1); [|done]. rewrite IH. constructor.
Qed.

Lemma sort_by_key_perm (l : list (string * string)) : sort_by_key l ≡ₚ l.
Proof.
  induction l as [|x l IH]; [done|].
  change (sort_by_key (x :: l)) with (insert_by_key x (sort_by_key l)).
  by rewrite insert_by_key_perm, IH.
Qed.

Lemma insert_by_key_sorted (x : string * string) (l : list (string * string)) :
  x.1 ∉ map fst l -> Sorted key_lt l -> Sorted key_lt (insert_by_key x l).
Proof.
  induction l as [|y l IH]; intros Hx Hs; simpl.
  - repeat constructor.
  - destruct (str_ltb y.1 x.1) eqn:Hyx.
    + apply Sorted_inv in Hs as [Hs Hh]. constructor.
      * apply IH; [|done]. intros Hin. apply Hx. by right.
      * destruct l as [|z l]; simpl; [by constructor|].
        destruct (str_ltb z.1 x.1); constructor; [|done].
        by inversion Hh.
    + assert (Hxy : key_lt x y).
      { destruct (str_ltb_total x.1 y.1) as [H|H]; [|done|congruence].
        intros Heq. apply Hx. rewrite Heq. by left. }
      constructor; [done|]. by constructor.
Qed.

Lemma sort_by_key_sorted (l : list (string * string)) :
  NoDup (map fst l) -> Sorted key_lt (sort_by_key l).
Proof.
  induction l as [|x l IH]; intros Hnd; [constructor|].
  simpl in Hnd. apply NoDup_cons in Hnd as [Hx Hnd].
  change (sort_by_key (x :: l)) with (insert_by_key x (sort_by_key l)).
  apply insert_by_key_sorted; [|by apply IH].
  by rewrite (sort_by_key_perm l).
Qed.

Lemma NoDup_fst_filter (P : string * string -> bool) (l : list (string * string)) :
  NoDup (map fst l) -> NoDup (map fst (List.filter P l)).
Proof.
  induction l as [|x l IH]; intros Hnd; simpl; [constructor|].
  simpl in Hnd. apply NoDup_cons in Hnd as [Hx Hnd].
  destruct (P x); simpl; [|by apply IH].
  constructor; [|by apply IH].
  intros Hin. apply Hx. apply list_elem_of_In in Hin. apply list_elem_of_In.
  apply in_map_iff in Hin as (y & Hy & Hin). apply filter_In in Hin as [Hin _].
  apply in_map_iff. by exists y.
Qed.

Lemma key_lt_trans : Transitive key_lt.
Proof. intros x y z. unfold key_lt. apply str_ltb_trans. Qed.

Lemma sorted_key_unique (l1 l2 : list (string * string)) :
  Sorted key_lt l1 -> Sorted key_lt l2 -> (forall x, x ∈ l1 <-> x ∈ l2) -> l1 = l2.
Proof.
  intros H1 H2. apply Sorted_StronglySorted in H1; [|apply key_lt_trans].
  apply Sorted_StronglySorted in H2; [|apply key_lt_trans].
  revert l2 H2. induction l1 as [|x l1 IH]; intros [|y l2] H2 Heq.
  - done.
  - exfalso. apply (elem_of_nil y). apply Heq. by left.
  - exfalso. apply (elem_of_nil x). apply Heq. by left.
  - apply StronglySorted_inv in H1 as [H1 Hx]. apply StronglySorted_inv in H2 as [H2 Hy].
    assert (Hirr : forall z, ~ key_lt z z).
    { intros z Hz. unfold key_lt in Hz. by rewrite str_ltb_irrefl in Hz. }
    assert (Hxy : x = y).
    { assert (Hx2 : x ∈ y :: l2) by (apply Heq; by left).
      apply elem_of_cons in Hx2 as [->|Hx2]; [done|].
      assert (Hy1 : y ∈ x :: l1) by (apply Heq; by left).
      apply elem_of_cons in Hy1 as [->|Hy1]; [done|].
      pose proof (proj1 (Forall_forall _ _) Hy x Hx2) as Hyx.
      pose proof (proj1 (Forall_forall _ _) Hx y Hy1) as Hxy'.
      exfalso. apply (Hirr x). eapply key_lt_trans; eauto. }
    subst y. f_equal. apply IH; [done|done|].
    intros z. split; intros Hz.
    + assert (Hz' : z ∈ x :: l2) by (apply Heq; by right).
      apply elem_of_cons in Hz' as [->|Hz']; [|done].
      exfalso. apply (Hirr x). exact (proj1 (Forall_forall _ _) Hx x Hz).
    + assert (Hz' : z ∈ x :: l1) by (apply Heq; by right).
      apply elem_of_cons in Hz' as [->|Hz']; [|done].
      exfalso. apply (Hirr x). exact (proj1 (Forall_forall _ _) Hy x Hz).
Qed.

Section Matching.
Variable re_match : string -> string -> bool.
Variable sha256_hex : string -> string.

Lemma variable_matched_spec (names excludes : list string) (k : string) :
  variable_matched re_match names excludes k = true <->
  is_Some (first_match re_match names k) /\ first_match re_match excludes k = None.
Proof.
  unfold variable_matched.
  destruct (first_match re_match names k); destruct (first_match re_match excludes k);
    split; try done; intros [[? ?] ?]; done.
Qed.

Lemma get_matched_variables_elem (names excludes : list string)
    (environ : list (string * string)) (kv : string * string) :
  kv ∈ get_matched_variables re_match names excludes environ <->
  kv ∈ environ /\ is_Some (first_match re_match names kv.1) /\
  first_match re_match excludes kv.1 = None.
Proof.
  unfold get_matched_variables. rewrite (sort_by_key_perm _).
  rewrite list_elem_of_In, filter_In, <- list_elem_of_In, variable_matched_spec. done.
Qed.


Lemma get_matched_variables_sorted (names excludes : list string)
    (environ : list (string * string)) :
  NoDup (map fst environ) ->
  Sorted key_lt (get_matched_variables re_match names excludes environ).
Proof.
  intros Hnd. unfold get_matched_variables.
  apply sort_by_key_sorted, NoDup_fst_filter, Hnd.
Qed.

(** X5: [DependencyTypeVariable.get_matched_variables] over an environment
    with distinct names: the pairs whose name matches an include and no
    exclude pattern, sorted by strictly increasing name. *)
Theorem get_matched_variables_selects (names excludes : list string)
    (environ : list (string * string)) :
  NoDup (map fst environ) ->
  (forall kv, kv ∈ get_matched_variables re_match names excludes environ <->
     kv ∈ environ /\ is_Some (first_match re_match names kv.1) /\
     first_match re_match excludes kv.1 = None) /\
  Sorted (fun x y => str_ltb x.1 y.1 = true)
    (get_matched_variables re_match names excludes environ).
Proof.
  intros Hnd. split.
  - intros kv. apply get_matched_variables_elem.
  - by apply get_matched_variables_sorted.
Qed.

(** X6: [DependencyTypeVariable.compute_checksum] depends only on the selected
    variables: two environments (with distinct names) that agree on them
    give the same checksum, whatever their other variables. *)
Theorem variable_checksum_only_selected (names excludes : list string)
    (environ1 environ2 : list (string * string)) :
  NoDup (map fst environ1) -> NoDup (map fst environ2) ->
  (forall k v, is_Some (first_match re_match names k) ->
     first_match re_match excludes k = None ->
     ((k, v) ∈ environ1 <-> (k, v) ∈ environ2)) ->
  compute_checksum re_match sha256_hex names excludes environ1 =
  compute_checksum re_match sha256_hex names excludes environ2.
Proof.
  intros Hnd1 Hnd2 Hsel. unfold compute_checksum. f_equal. f_equal.
  apply sorted_key_unique; [by apply get_matched_variables_sorted..|].
  intros [k v]. rewrite !get_matched_variables_elem. simpl.
  split; intros (Hin & Hn & He); (split; [|done]); by apply Hsel.
Qed.

End Matching.
Lemma get_matched_variables_selects_witness :
  NoDup (map fst [("B", "2"); ("X", "9"); ("A", "1")]) /\
  (forall kv, kv ∈ get_matched_variables String.eqb ["A"; "B"] [] [("B", "2"); ("X", "9"); ("A", "1")] <->
     kv ∈ [("B", "2"); ("X", "9"); ("A", "1")] /\ is_Some (first_match String.eqb ["A"; "B"] kv.1) /\
     first_match String.eqb [] kv.1 = None) /\
  Sorted (fun x y => str_ltb x.1 y.1 = true)
    (get_matched_variables String.eqb ["A"; "B"] [] [("B", "2"); ("X", "9"); ("A", "1")]).
Proof.
  assert (Hnd : NoDup (map fst [("B", "2"); ("X", "9"); ("A", "1")]))
    by (apply (bool_decide_unpack _ (dec := NoDup_dec _)); vm_compute; reflexivity).
  split; [exact Hnd|].
  exact (get_matched_variables_selects String.eqb ["A"; "B"] [] _ Hnd).
Defined.

Lemma variable_checksum_only_selected_witness :
  compute_checksum String.eqb (fun s => s) ["A"] [] [("A", "1"); ("X", "9")] =
  compute_checksum String.eqb (fun s => s) ["A"] [] [("X", "8"); ("A", "1")].
Proof.
  apply (variable_checksum_only_selected String.eqb (fun s => s) ["A"] []
           [("A", "1"); ("X", "9")] [("X", "8"); ("A", "1")]).
  - apply (bool_decide_unpack _ (dec := NoDup_dec _)). vm_compute. reflexivity.
  - apply (bool_decide_unpack _ (dec := NoDup_dec _)). vm_compute. reflexivity.
  - intros k v [p Hp] _. cbn [first_match] in Hp.
    destruct (String.eqb_spec "A" k) as [<-|Hk]; [|discriminate Hp].
    rewrite !elem_of_cons, elem_of_nil. split; intros H; intuition congruence.
Defined.

End VariableExtra.

Module ArchiverExtra.
Import Archiver ArchiverFacts.

Section WithHash.
Variable sha256_hex : string -> string.
Variable now : Z.

Lemma sync_file_keeps (dest : string) (files : fs) (x : string * string) (d : string) :
  is_Some (files !! d) -> is_Some (sync_file sha256_hex now dest files x !! d).
Proof.
  destruct x as [r c]. unfold sync_file. intros Hd.
  destruct (files !! dest_join dest r) as [[c' m]|]; [destruct (negb _)|]; try done;
    (destruct (decide (dest_join dest r = d)) as [<-|Hne];
      [by rewrite lookup_insert_eq|by rewrite lookup_insert_ne]).
Qed.

Lemma sync_fold_keeps (dest : string) (l : list (string * string)) (files : fs) (d : string) :
  is_Some (files !! d) -> is_Some (foldl (sync_file sha256_hex now dest) files l !! d).
Proof.
  revert files. induction l as [|x l IH]; intros files Hd; [done|].
  simpl. apply IH. by apply sync_file_keeps.
Qed.

(** X7: [Archiver.extract] never deletes a file, and leaves every path that
    is not the destination of an archive member as it was. *)
Theorem extract_only_touches_members (members : list (string * string)) (dest : string)
    (files : fs) :
  (forall d, is_Some (files !! d) -> is_Some (extract sha256_hex now members dest files !! d)) /\
  (forall d, (forall r c, (r, c) ∈ members -> dest_join dest r <> d) ->
     extract sha256_hex now members dest files !! d = files !! d).
Proof.
  unfold extract, sync_with_checksum. split.
  - intros d. apply sync_fold_keeps.
  - intros d Hd. apply sync_fold_other.
    intros r Hr. apply list_elem_of_fmap in Hr as ([r' c] & -> & Hr).
    apply elem_of_map_to_list, temp_dir_in in Hr. simpl. by apply (Hd r' c).
Qed.

End WithHash.

(** X8: Extracting the same archive a second time, at any time [now2],
    leaves the files (contents and mtimes) as the first extraction, at
    [now1], left them. *)
Theorem extract_idempotent (sha256_hex : string -> string) (now1 now2 : Z)
    (members : list (string * string)) (dest : string) (files : fs) :
  extract sha256_hex now2 members dest (extract sha256_hex now1 members dest files) =
  extract sha256_hex now1 members dest files.
Proof.
  set (files1 := extract sha256_hex now1 members dest files).
  unfold extract at 1, sync_with_checksum.
  apply sync_fold_id. intros [r c] Hx.
  assert (H1 : files1 !! dest_join dest r = synced sha256_hex now1 files (dest_join dest r) c).
  { unfold files1, extract, sync_with_checksum.
    apply sync_fold_entry; [apply NoDup_fst_map_to_list|done]. }
  unfold sync_file. rewrite H1. unfold synced.
  destruct (files !! dest_join dest r) as [[c' m]|].
  - destruct (String.eqb (sha256_hex c) (sha256_hex c')) eqn:Hc.
    + by rewrite Hc.
    + by rewrite String.eqb_refl.
  - by rewrite String.eqb_refl.
Qed.

End ArchiverExtra.

Module CacheExtra.
Import Target Cache FingerprintFacts ArchiverFacts.

Definition starts_with_slash (s : string) : Prop := exists r, s = String "/" r.

Lemma path_join_rel (a b : string) :
  ~ starts_with_slash b ->
  path_join a b = if ends_with_sep a then a +:+ b else a +:+ "/" +:+ b.
Proof.
  intros Hb. destruct b as [|c r]; [reflexivity|].
  destruct c as [[] [] [] [] [] [] [] []]; try reflexivity.
  exfalso. apply Hb. by exists r.
Qed.

(** [path_join a b] extends [a], unless [b] is absolute. *)
Lemma path_join_prefix (a b : string) :
  (exists r, path_join a b = a +:+ r) \/ (starts_with_slash b /\ path_join a b = b).
Proof.
  destruct b as [|c r].
  - left. rewrite path_join_rel by (by intros [r Hr]).
    destruct (ends_with_sep a); eexists; reflexivity.
  - destruct (decide (c = "/"%char)) as [->|Hc].
    + right. split; [by exists r|reflexivity].
    + left. rewrite path_join_rel by (intros [r' Hr']; by injection Hr' as ->).
      destruct (ends_with_sep a); eexists; reflexivity.
Qed.

Lemma ci_dev_distinct (x y : string) : ".quack-cache/" +:+ x <> ".quack-cache-dev/" +:+ y.
Proof. simpl. discriminate. Qed.

Lemma ci_abs_distinct (x y : string) : ".quack-cache/" +:+ x <> String "/" y.
Proof. simpl. discriminate. Qed.

Lemma object_key_inj (base p1 p2 : string) :
  object_key base p1 = object_key base p2 -> p1 = p2.
Proof.
  unfold object_key. destruct (String.eqb base ""); [done|].
  intros H. apply append_cancel_l in H. by injection H.
Qed.

(** A path of the Dev tier, or an absolute path. *)
Definition dev_or_abs (p : string) : Prop :=
  (exists r, p = ".quack-cache-dev/" +:+ r) \/ starts_with_slash p.

Lemma dev_or_abs_join (a b : string) : dev_or_abs a -> dev_or_abs (path_join a b).
Proof.
  intros Ha. destruct (path_join_prefix a b) as [[r ->]|[Hb ->]]; [|by right].
  destruct Ha as [[r0 ->]|[r0 ->]].
  - left. exists (r0 +:+ r). apply append_assoc_str.
  - right. by exists (r0 +:+ r).
Qed.

Lemma ci_not_dev_or_abs (x p : string) : dev_or_abs p -> p <> ".quack-cache/" +:+ x.
Proof.
  intros [[r ->]|[r ->]] Heq; symmetry in Heq.
  - by apply ci_dev_distinct in Heq.
  - by apply ci_abs_distinct in Heq.
Qed.

Section Props.
Variable CACHE_METADATA_FILENAME xdg_cache_home app_name oss_base_path commit_sha : string.
Variable save_for_load : bool.
Variable zstd_tar : list (string * string) -> string.
Variable metadata_json : string -> string -> string -> string.

Lemma upload_other (st st' : store) (path dest k : string) :
  oss_client_upload oss_base_path st path dest = Some st' ->
  k <> object_key oss_base_path dest -> objects st' !! k = objects st !! k.
Proof.
  unfold oss_client_upload. intros H Hk.
  destruct (files st !! path) as [c|]; simplify_eq/=.
  by rewrite lookup_insert_ne.
Qed.

Lemma local_save_objects (st st' : store) (t : target) (outputs : list string) :
  local_save CACHE_METADATA_FILENAME xdg_cache_home app_name commit_sha zstd_tar
    metadata_json st t outputs = Some st' -> objects st' = objects st.
Proof.
  unfold local_save. intros H.
  destruct (read_outputs st outputs) as [pcs|]; simplify_eq/=. done.
Qed.

Lemma ci_base_eq :
  ~ starts_with_slash app_name -> ci_base_path app_name = ".quack-cache/" +:+ app_name.
Proof. intros H. unfold ci_base_path. rewrite path_join_rel by done. reflexivity. Qed.

Lemma dev_base_eq :
  ~ starts_with_slash app_name -> dev_base_path app_name = ".quack-cache-dev/" +:+ app_name.
Proof. intros H. unfold dev_base_path. rewrite path_join_rel by done. reflexivity. Qed.

Lemma oss_cache_path_dev (t : target) (suffix : string) :
  ~ starts_with_slash app_name ->
  exists r, oss_cache_path (dev_base_path app_name) t +:+ suffix = ".quack-cache-dev/" +:+ r.
Proof.
  intros H. unfold oss_cache_path. rewrite dev_base_eq by done.
  eexists. rewrite !append_assoc_str. reflexivity.
Qed.

Lemma commit_metadata_path_dev (t : target) :
  ~ starts_with_slash app_name ->
  String.eqb commit_sha "" = false ->
  dev_or_abs (commit_metadata_path commit_sha (dev_base_path app_name) t).
Proof.
  intros H Hsha. unfold commit_metadata_path, commits_path. rewrite Hsha.
  apply dev_or_abs_join, dev_or_abs_join, dev_or_abs_join.
  left. rewrite dev_base_eq by done. by eexists.
Qed.

Lemma ci_key_not_dev (rest p : string) :
  ~ starts_with_slash app_name -> dev_or_abs p ->
  object_key oss_base_path (ci_base_path app_name +:+ "/" +:+ rest) <> object_key oss_base_path p.
Proof.
  intros Happ Hp Heq. apply object_key_inj in Heq.
  rewrite ci_base_eq, append_assoc_str in Heq by done.
  by apply (ci_not_dev_or_abs (app_name +:+ "/" +:+ rest) p Hp).
Qed.

(** X9: For an app name not starting with [/], a Dev-backend [save] writes
    only under the Dev prefix: no object of the CI tier changes, so the
    OSS backend's [exists] answers as before. *)
Theorem dev_save_keeps_ci_tier (st st' : store) (t : target) (outputs : list string) :
  ~ starts_with_slash app_name ->
  backend_save CACHE_METADATA_FILENAME xdg_cache_home app_name oss_base_path commit_sha
    save_for_load zstd_tar metadata_json BDev st t outputs = Some st' ->
  (forall rest,
     objects st' !! object_key oss_base_path (ci_base_path app_name +:+ "/" +:+ rest) =
     objects st !! object_key oss_base_path (ci_base_path app_name +:+ "/" +:+ rest)) /\
  (forall t', backend_exists CACHE_METADATA_FILENAME xdg_cache_home app_name oss_base_path
                BOSS st' t' =
              backend_exists CACHE_METADATA_FILENAME xdg_cache_home app_name oss_base_path
                BOSS st t').
Proof.
  intros Happ H.
  assert (Hk : forall rest,
     objects st' !! object_key oss_base_path (ci_base_path app_name +:+ "/" +:+ rest) =
     objects st !! object_key oss_base_path (ci_base_path app_name +:+ "/" +:+ rest)).
  { intros rest. simpl in H. unfold oss_save in H.
    destruct (local_save _ _ _ _ _ _ st t outputs) as [st1|] eqn:H1; [|discriminate].
    simpl in H. apply local_save_objects in H1.
    destruct (oss_client_upload _ st1 _ _) as [st2|] eqn:H2; [|discriminate].
    simpl in H.
    destruct (oss_client_upload _ st2 _ _) as [st3|] eqn:H3; [|discriminate].
    simpl in H.
    assert (Ha : dev_or_abs (oss_archive_path (dev_base_path app_name) t)).
    { left. by apply oss_cache_path_dev. }
    assert (Hm : dev_or_abs (oss_metadata_path CACHE_METADATA_FILENAME (dev_base_path app_name) t)).
    { left. by apply oss_cache_path_dev. }
    assert (H23 : objects st3 !! object_key oss_base_path (ci_base_path app_name +:+ "/" +:+ rest) =
                  objects st !! object_key oss_base_path (ci_base_path app_name +:+ "/" +:+ rest)).
    { rewrite (upload_other _ _ _ _ _ H3) by (by apply ci_key_not_dev).
      rewrite (upload_other _ _ _ _ _ H2) by (by apply ci_key_not_dev).
      by rewrite H1. }
    destruct (save_for_load && negb (String.eqb (commits_path commit_sha (dev_base_path app_name)) ""))
      eqn:Hc.
    - apply andb_prop in Hc as [_ Hc]. apply negb_true_iff in Hc.
      assert (Hsha : String.eqb commit_sha "" = false).
      { unfold commits_path in Hc. destruct (String.eqb commit_sha ""); [done|done]. }
      rewrite (upload_other _ _ _ _ _ H).
      + done.
      + apply ci_key_not_dev; [done|]. by apply commit_metadata_path_dev.
    - by injection H as <-. }
  split; [done|].
  intros t'. simpl. unfold oss_exists, oss_client_exists, oss_metadata_path, oss_cache_path.
  rewrite !append_assoc_str. by rewrite Hk.
Qed.

End Props.
Definition dev_store : store :=
  mk_store {[ "out/a" := "hello"; "out/sub/b" := "world" ]} ∅ ∅.

Lemma dev_save_keeps_ci_tier_witness :
  exists st',
    backend_save "metadata.json" "/home/u/.cache" "quack_test" "" "abc123" true
      (fun _ => "tar") (fun _ _ _ => "json") BDev dev_store
      (mk_target "quack:test" "ab12" []) ["out"] = Some st' /\
  (forall rest,
     objects st' !! object_key "" (ci_base_path "quack_test" +:+ "/" +:+ rest) =
     objects dev_store !! object_key "" (ci_base_path "quack_test" +:+ "/" +:+ rest)) /\
  (forall t', backend_exists "metadata.json" "/home/u/.cache" "quack_test" "" BOSS st' t' =
              backend_exists "metadata.json" "/home/u/.cache" "quack_test" "" BOSS dev_store t').
Proof.
  eexists. split; [reflexivity|].
  apply (dev_save_keeps_ci_tier "metadata.json" "/home/u/.cache" "quack_test" "" "abc123" true
           (fun _ => "tar") (fun _ _ _ => "json") dev_store _
           (mk_target "quack:test" "ab12" []) ["out"]).
  - intros [r Hr]. discriminate Hr.
  - reflexivity.
Defined.

End CacheExtra.

Module SpecExtra.
Import TargetInit SpecModel.

Lemma check_names_spec (names : gset string) (v : list ddict) :
  check_names names v = None <->
  Forall (fun d => exists n, d_name d = Some n /\ n ∉ names) v /\ NoDup (map d_name v).
Proof.
  revert names. induction v as [|d v IH]; intros names; simpl.
  - split; [split; constructor|done].
  - destruct (d_name d) as [n|] eqn:Hn.
    + destruct (decide (n ∈ names)) as [Hin|Hin].
      * split; [discriminate|]. intros [Hf _]. apply Forall_cons in Hf as [(n' & Hn' & Hni) _].
        congruence.
      * rewrite IH. split.
        -- intros [Hf Hnd]. split.
           ++ constructor; [by exists n|].
              eapply Forall_impl; [exact Hf|]. intros d' (n' & Hn' & Hni). exists n'. set_solver.
           ++ constructor; [|done].
              intros Hin'. apply list_elem_of_fmap in Hin' as (d' & Hd' & Hin').
              eapply Forall_forall in Hf; [|exact Hin'].
              destruct Hf as (n' & Hn' & Hni). rewrite Hn' in Hd'. injection Hd' as ->. set_solver.
        -- intros [Hf Hnd]. apply Forall_cons in Hf as [_ Hf]. apply NoDup_cons in Hnd as [Hnot Hnd].
           split; [|done].
           apply Forall_forall. intros d' Hd'.
           eapply Forall_forall in Hf; [|exact Hd'].
           destruct Hf as (n' & Hn' & Hni). exists n'. split; [done|].
           apply not_elem_of_union. split; [|done].
           rewrite not_elem_of_singleton. intros ->. apply Hnot.
           apply list_elem_of_fmap. by exists d'.
    + split; [discriminate|]. intros [Hf _]. apply Forall_cons in Hf as [(n' & Hn' & _) _].
      congruence.
Qed.

Lemma by_name_lookup_gen (v : list ddict) (m : gmap string ddict) (n : string) (d : ddict) :
  Forall (fun d => is_Some (d_name d)) v -> NoDup (map d_name v) ->
  foldl (fun m dep => match d_name dep with Some n => <[n := dep]> m | None => m end) m v !! n
    = Some d <->
  (d ∈ v /\ d_name d = Some n) \/ (m !! n = Some d /\ Some n ∉ map d_name v).
Proof.
  revert m. induction v as [|d0 v IH]; intros m Hf Hnd; simpl.
  - split; [intros H; right; split; [done|apply not_elem_of_nil]|].
    intros [[Hin _]|[H _]]; [by apply elem_of_nil in Hin|done].
  - apply Forall_cons in Hf as [[n0 Hn0] Hf]. apply NoDup_cons in Hnd as [Hnot Hnd].
    rewrite Hn0 in Hnot |- *. rewrite IH by done. rewrite elem_of_cons. simpl. rewrite elem_of_cons.
    destruct (decide (n0 = n)) as [<-|Hne].
    + rewrite lookup_insert_eq. split.
      * intros [[Hin Hd]|[Hd Hn]]; [left; split; [by right|done]|].
        injection Hd as <-. left. split; [by left|done].
      * intros [[[->|Hin] Hd]|[_ Hn]].
        -- right. split; [done|done].
        -- left. done.
        -- exfalso. apply Hn. by left.
    + rewrite lookup_insert_ne by done. split.
      * intros [[Hin Hd]|[Hd Hn]]; [left; split; [by right|done]|].
        right. split; [done|]. intros [Heq|Hin]; [congruence|done].
      * intros [[[<-|Hin] Hd]|[Hd Hn]].
        -- congruence.
        -- left. done.
        -- right. split; [done|]. intros Hin. apply Hn. by right.
Qed.

(** X10: [Spec.validate_global_dependencies] succeeds iff every dependency has
    a name and the names are distinct; the dict it returns maps each name
    to the dependency carrying it. *)
Theorem validate_global_dependencies_spec (v : list ddict) :
  ((exists m, validate_global_dependencies v = inr m) <->
     Forall (fun d => is_Some (d_name d)) v /\ NoDup (map d_name v)) /\
  (forall m, validate_global_dependencies v = inr m ->
     forall n d, m !! n = Some d <-> d ∈ v /\ d_name d = Some n).
Proof.
  assert (Hc : check_names ∅ v = None <->
               Forall (fun d => is_Some (d_name d)) v /\ NoDup (map d_name v)).
  { rewrite check_names_spec. split; intros [Hf Hnd]; (split; [|done]);
      (eapply Forall_impl; [exact Hf|]).
    - intros d (n & Hn & _). by exists n.
    - intros d [n Hn]. exists n. split; [done|set_solver]. }
  unfold validate_global_dependencies. split.
  - rewrite <- Hc. destruct (check_names ∅ v); split; intros H.
    + by destruct H.
    + discriminate.
    + done.
    + by eexists.
  - intros m Hm n d. destruct (check_names ∅ v) eqn:Hv; [discriminate|].
    injection Hm as <-. destruct (proj1 Hc eq_refl) as [Hf Hnd].
    unfold by_name. rewrite by_name_lookup_gen by done.
    rewrite lookup_empty. naive_solver.
Qed.

Section Registry.
Variable target script : Type.
Variable target_name : target -> string.
Variable script_name : script -> string.

Definition disjoint (r : registry target script) : Prop :=
  forall n, is_Some (targets _ _ r !! n) -> scripts _ _ r !! n = None.

Definition extends (r r' : registry target script) : Prop :=
  targets _ _ r ⊆ targets _ _ r' /\ scripts _ _ r ⊆ scripts _ _ r'.

Lemma extends_refl (r : registry target script) : extends r r.
Proof. split; done. Qed.

Lemma extends_trans (r1 r2 r3 : registry target script) :
  extends r1 r2 -> extends r2 r3 -> extends r1 r3.
Proof. intros [H1 H2] [H3 H4]. split; etrans; eauto. Qed.

Lemma add_target_spec (r r' : registry target script) (t : target) :
  add_target target script target_name r t = Some r' ->
  extends r r' /\ (disjoint r -> disjoint r') /\ targets _ _ r' !! target_name t = Some t.
Proof.
  unfold add_target. intros H.
  destruct (targets _ _ r !! target_name t) eqn:Ht; [discriminate|].
  destruct (scripts _ _ r !! target_name t) eqn:Hs; [discriminate|].
  injection H as <-. simpl. split; [|split].
  - split; simpl; [by apply insert_subseteq|done].
  - intros Hd n Hn. simpl in *. destruct (decide (target_name t = n)) as [<-|Hne]; [done|].
    rewrite lookup_insert_ne in Hn by done. by apply Hd.
  - by rewrite lookup_insert_eq.
Qed.

Lemma add_script_spec (r r' : registry target script) (s : script) :
  add_script target script script_name r s = Some r' ->
  extends r r' /\ (disjoint r -> disjoint r') /\ scripts _ _ r' !! script_name s = Some s.
Proof.
  unfold add_script. intros H.
  destruct (targets _ _ r !! script_name s) eqn:Ht; [discriminate|].
  destruct (scripts _ _ r !! script_name s) eqn:Hs; [discriminate|].
  injection H as <-. simpl. split; [|split].
  - split; simpl; [done|by apply insert_subseteq].
  - intros Hd n Hn. simpl in *. destruct (decide (script_name s = n)) as [<-|Hne].
    + rewrite Ht in Hn. by destruct Hn.
    + rewrite lookup_insert_ne by done. by apply Hd.
  - by rewrite lookup_insert_eq.
Qed.

Lemma add_targets_spec (ts : list target) (r r' : registry target script) :
  add_targets target script target_name r ts = Some r' ->
  extends r r' /\ (disjoint r -> disjoint r') /\
  (forall t, t ∈ ts -> targets _ _ r' !! target_name t = Some t).
Proof.
  revert r. induction ts as [|t ts IH]; intros r H; simpl in H.
  - injection H as <-. split; [apply extends_refl|]. split; [done|].
    intros t Ht. by apply elem_of_nil in Ht.
  - destruct (add_target _ _ _ r t) as [r1|] eqn:H1; [|discriminate]. simpl in H.
    apply add_target_spec in H1 as (He1 & Hd1 & Hl1).
    destruct (IH r1 H) as (He2 & Hd2 & Hl2). split; [|split].
    + by eapply extends_trans.
    + auto.
    + intros t' Ht'. apply elem_of_cons in Ht' as [->|Ht']; [|by apply Hl2].
      eapply lookup_weaken; [exact Hl1|apply He2].
Qed.

Lemma add_scripts_spec (ss : list script) (r r' : registry target script) :
  add_scripts target script script_name r ss = Some r' ->
  extends r r' /\ (disjoint r -> disjoint r') /\
  (forall s, s ∈ ss -> scripts _ _ r' !! script_name s = Some s).
Proof.
  revert r. induction ss as [|s ss IH]; intros r H; simpl in H.
  - injection H as <-. split; [apply extends_refl|]. split; [done|].
    intros s Hs. by apply elem_of_nil in Hs.
  - destruct (add_script _ _ _ r s) as [r1|] eqn:H1; [|discriminate]. simpl in H.
    apply add_script_spec in H1 as (He1 & Hd1 & Hl1).
    destruct (IH r1 H) as (He2 & Hd2 & Hl2). split; [|split].
    + by eapply extends_trans.
    + auto.
    + intros s' Hs'. apply elem_of_cons in Hs' as [->|Hs']; [|by apply Hl2].
      eapply lookup_weaken; [exact Hl1|apply He2].
Qed.

(** X11: The include loop of [Spec.post_process], when it finishes: every
    registered target and script stays, every included one is registered
    under its name, and no name is both a target and a script if none was
    before. *)
Theorem add_includes_keeps_names_unique (r r' : registry target script)
    (include : list (list target * list script)) :
  add_includes target script target_name script_name r include = Some r' ->
  (forall n t, targets _ _ r !! n = Some t -> targets _ _ r' !! n = Some t) /\
  (forall n s, scripts _ _ r !! n = Some s -> scripts _ _ r' !! n = Some s) /\
  (forall ts ss, (ts, ss) ∈ include ->
     (forall t, t ∈ ts -> targets _ _ r' !! target_name t = Some t) /\
     (forall s, s ∈ ss -> scripts _ _ r' !! script_name s = Some s)) /\
  ((forall n, is_Some (targets _ _ r !! n) -> scripts _ _ r !! n = None) ->
   forall n, is_Some (targets _ _ r' !! n) -> scripts _ _ r' !! n = None).
Proof.
  assert (Hgen : forall r, add_includes target script target_name script_name r include = Some r' ->
    extends r r' /\ (disjoint r -> disjoint r') /\
    (forall ts ss, (ts, ss) ∈ include ->
       (forall t, t ∈ ts -> targets _ _ r' !! target_name t = Some t) /\
       (forall s, s ∈ ss -> scripts _ _ r' !! script_name s = Some s))).
  { induction include as [|[ts ss] include IH]; intros r0 H; simpl in H.
    - injection H as <-. split; [apply extends_refl|]. split; [done|].
      intros ts ss Hin. by apply elem_of_nil in Hin.
    - destruct (add_targets _ _ _ r0 ts) as [r1|] eqn:H1; [|discriminate]. simpl in H.
      destruct (add_scripts _ _ _ r1 ss) as [r2|] eqn:H2; [|discriminate]. simpl in H.
      apply add_targets_spec in H1 as (He1 & Hd1 & Hl1).
      apply add_scripts_spec in H2 as (He2 & Hd2 & Hl2).
      destruct (IH r2 H) as (He3 & Hd3 & Hl3). split; [|split].
      + eapply extends_trans; [exact He1|]. by eapply extends_trans.
      + auto.
      + intros ts' ss' Hin. apply elem_of_cons in Hin as [Heq|Hin]; [|by apply Hl3].
        injection Heq as -> ->. split.
        * intros t Ht. eapply lookup_weaken; [by apply Hl1|].
          etrans; [apply He2|apply He3].
        * intros s Hs. eapply lookup_weaken; [by apply Hl2|apply He3]. }
  intros H. destruct (Hgen r H) as ([Ht Hs] & Hd & Hl). split; [|split; [|split]].
  - intros n t Hn. by eapply lookup_weaken.
  - intros n s Hn. by eapply lookup_weaken.
  - done.
  - exact Hd.
Qed.

End Registry.

Definition empty_registry : registry string string := mk_registry string string ∅ ∅.

Lemma add_includes_keeps_names_unique_witness :
  exists r',
    add_includes string string (fun n => n) (fun n => n) empty_registry
      [(["t1"], ["s1"]); (["t2"], [])] = Some r' /\
  (forall n t, targets _ _ empty_registry !! n = Some t -> targets _ _ r' !! n = Some t) /\
  (forall n s, scripts _ _ empty_registry !! n = Some s -> scripts _ _ r' !! n = Some s) /\
  (forall ts ss, (ts, ss) ∈ [(["t1"], ["s1"]); (["t2"], [])] ->
     (forall t, t ∈ ts -> targets _ _ r' !! t = Some t) /\
     (forall s, s ∈ ss -> scripts _ _ r' !! s = Some s)) /\
  ((forall n, is_Some (targets _ _ empty_registry !! n) -> scripts _ _ empty_registry !! n = None) ->
   forall n, is_Some (targets _ _ r' !! n) -> scripts _ _ r' !! n = None).
Proof.
  eexists. split; [reflexivity|].
  apply (add_includes_keeps_names_unique string string (fun n => n) (fun n => n)
           empty_registry _ [(["t1"], ["s1"]); (["t2"], [])]).
  reflexivity.
Defined.

End SpecExtra.

Module TargetExtra.
Import PyRepr Target Fingerprint TargetValidate FingerprintFacts.

Definition slash : ascii := "/".

Lemma name_char_not_slash (c : ascii) : name_char c = true -> c <> slash.
Proof. intros H ->. vm_compute in H. discriminate. Qed.

Lemma name_tail_no_slash (s : string) : name_tail s = true -> has_char slash s = false.
Proof.
  induction s as [|c s IH]; [done|]. cbn [name_tail has_char]. intros H.
  apply orb_true_iff in H as [H|H].
  - apply andb_prop in H as [Hc Hs]. apply String.eqb_eq in Hs as ->.
    apply Nat.eqb_eq in Hc. rewrite orb_false_r.
    apply Ascii.eqb_neq. intros <-. vm_compute in Hc. discriminate.
  - apply andb_prop in H as [Hc Hs]. rewrite IH by done. rewrite orb_false_r.
    apply Ascii.eqb_neq. intros Heq. by apply (name_char_not_slash c).
Qed.

Lemma validate_no_slash (parts_ok : bool) (n d : string) :
  validate parts_ok n d = None -> has_char slash n = false.
Proof.
  unfold validate. destruct parts_ok; [|discriminate]. simpl.
  destruct (name_matches n) eqn:Hn; [|discriminate]. intros _.
  destruct n as [|c s]; [discriminate|]. cbn [name_matches has_char] in Hn |- *.
  apply andb_prop in Hn as [Hc Hs]. rewrite name_tail_no_slash by done.
  rewrite orb_false_r. apply Ascii.eqb_neq. intros Heq. by apply (name_char_not_slash c).
Qed.

Lemma hex_char_not_slash (c : ascii) : is_hex_char c = true -> Ascii.eqb slash c = false.
Proof.
  destruct c as [[] [] [] [] [] [] [] []]; vm_compute;
    intros H; try discriminate H; reflexivity.
Qed.

Lemma hex_no_slash (s : string) : is_hex s = true -> has_char slash s = false.
Proof.
  induction s as [|c s IH]; cbn [has_char is_hex]; [done|].
  intros [Hc Hs]%andb_prop. by rewrite hex_char_not_slash, IH.
Qed.

(** Splitting at the first slash. *)
Lemma split_at_slash (a b x y : string) :
  has_char slash a = false -> has_char slash b = false ->
  a +:+ String slash x = b +:+ String slash y -> a = b /\ x = y.
Proof.
  revert b. induction a as [|c a IH]; intros [|d b] Ha Hb H;
    cbn [has_char String.append] in *.
  - injection H as ->. done.
  - injection H as Hd _. rewrite <- Hd, Ascii.eqb_refl in Hb. discriminate.
  - injection H as Hc _. rewrite Hc, Ascii.eqb_refl in Ha. discriminate.
  - apply orb_false_iff in Ha as [_ Ha]. apply orb_false_iff in Hb as [_ Hb].
    injection H as -> H. destruct (IH b Ha Hb H) as [-> ->]. done.
Qed.

Lemma substring_full (s : string) : substring 0 (String.length s) s = s.
Proof. induction s as [|c s IH]; [done|]. simpl. by rewrite IH. Qed.

Lemma substring_split2 (c : string) :
  substring 0 2 c +:+ substring 2 (String.length c - 2) c = c.
Proof.
  destruct c as [|a [|b r]]; [reflexivity|reflexivity|]. simpl.
  assert (H0 : substring 0 0 r = EmptyString) by (destruct r; reflexivity).
  rewrite H0, ?Nat.sub_0_r, substring_full. reflexivity.
Qed.

Lemma substring2_no_slash (c : string) :
  has_char slash c = false -> has_char slash (substring 0 2 c) = false.
Proof.
  destruct c as [|a [|b r]]; [done| |].
  - cbn [substring has_char]. intros H. apply orb_false_iff in H as [H _]. by rewrite H.
  - assert (H0 : substring 0 0 r = EmptyString) by (destruct r; reflexivity).
    cbn [substring has_char]. rewrite H0.
    intros H. apply orb_false_iff in H as [Ha H]. apply orb_false_iff in H as [Hb _].
    by rewrite Ha, Hb.
Qed.

(** X12: [Target.cache_path] is injective over validated names and hex
    checksums: equal cache paths mean equal names and checksums. *)
Theorem cache_path_injective (t1 t2 : target) (ok1 ok2 : bool) (d1 d2 : string) :
  validate ok1 (name t1) d1 = None -> validate ok2 (name t2) d2 = None ->
  is_hex (checksum_value t1) = true -> is_hex (checksum_value t2) = true ->
  cache_path t1 = cache_path t2 ->
  name t1 = name t2 /\ checksum_value t1 = checksum_value t2.
Proof.
  intros Hv1 Hv2 Hh1 Hh2 H. unfold cache_path in H.
  apply validate_no_slash in Hv1, Hv2.
  apply hex_no_slash in Hh1, Hh2.
  apply split_at_slash in H as [Hn H]; [|done|done].
  split; [done|].
  apply split_at_slash in H as [H1 H2];
    [|by apply substring2_no_slash|by apply substring2_no_slash].
  rewrite <- (substring_split2 (checksum_value t1)), <- (substring_split2 (checksum_value t2)).
  by rewrite H1, H2.
Qed.

Lemma cache_path_injective_witness :
  validate true "quack:test" "A test target" = None /\ is_hex "ab12" = true /\
  name (mk_target "quack:test" "ab12" []) = name (mk_target "quack:test" "ab12" []) /\
  checksum_value (mk_target "quack:test" "ab12" []) =
    checksum_value (mk_target "quack:test" "ab12" []).
Proof.
  split; [vm_compute; reflexivity|]. split; [vm_compute; reflexivity|].
  apply (cache_path_injective (mk_target "quack:test" "ab12" []) (mk_target "quack:test" "ab12" [])
           true true "A test target" "A test target");
    vm_compute; reflexivity.
Defined.

End TargetExtra.

Module CliExtra.
Import Cli.

Lemma filter_all {A} (P : A -> bool) (l : list A) :
  (forall x, x ∈ l -> P x = true) -> List.filter P l = l.
Proof.
  induction l as [|x l IH]; intros H; [done|]. simpl.
  rewrite H by (by left). f_equal. apply IH. intros y Hy. apply H. by right.
Qed.

Lemma filter_nil_iff {A} (P : A -> bool) (l : list A) :
  List.filter P l = [] <-> forall x, x ∈ l -> P x = false.
Proof.
  induction l as [|x l IH]; simpl.
  - split; [|done]. intros _ x Hx. by apply elem_of_nil in Hx.
  - destruct (P x) eqn:Hx; split.
    + discriminate.
    + intros H. rewrite H in Hx; [discriminate|by left].
    + intros H y Hy. apply elem_of_cons in Hy as [->|Hy]; [done|]. by apply IH.
    + intros H. apply IH. intros y Hy. apply H. by right.
Qed.

(** X13: [execute_scripts_parallel] submits scripts only when not exactly one
    name is given and every name is a script and not a target; it then
    submits all of them, in order. *)
Theorem execute_scripts_parallel_spec (names : list string) (scripts targets : gset string) :
  (forall l, execute_scripts_parallel names scripts targets = ParallelRun l ->
     l = names /\ length names <> 1 /\ forall n, n ∈ names -> n ∈ scripts /\ n ∉ targets) /\
  (length names <> 1 -> (forall n, n ∈ names -> n ∈ scripts /\ n ∉ targets) ->
     execute_scripts_parallel names scripts targets = ParallelRun names).
Proof.
  unfold execute_scripts_parallel. split.
  - intros l H. destruct (Nat.eqb_spec (length names) 1) as [Hl|Hl]; [discriminate|].
    destruct (List.filter _ names) as [|x o] eqn:Ho; [|discriminate].
    destruct (List.filter (fun n => bool_decide (n ∈ targets)) names) as [|y t] eqn:Ht;
      [|discriminate].
    injection H as <-.
    pose proof (proj1 (filter_nil_iff _ _) Ho) as Ho'. pose proof (proj1 (filter_nil_iff _ _) Ht) as Ht'. clear Ho Ht. rename Ho' into Ho. rename Ht' into Ht.
    assert (Hall : forall n, n ∈ names -> n ∈ scripts /\ n ∉ targets).
    { intros n Hn. specialize (Ho n Hn). specialize (Ht n Hn).
      apply bool_decide_eq_false in Ho. apply bool_decide_eq_false in Ht. split; [|done].
      destruct (decide (n ∈ scripts)); [done|]. exfalso. by apply Ho. }
    split; [|done].
    apply filter_all. intros n Hn. apply bool_decide_eq_true. by apply Hall.
  - intros Hl Hall. destruct (Nat.eqb_spec (length names) 1) as [Hl'|_]; [done|].
    rewrite (proj2 (filter_nil_iff _ names)).
    + rewrite (proj2 (filter_nil_iff (fun n => bool_decide (n ∈ targets)) names)).
      * f_equal. apply filter_all. intros n Hn. apply bool_decide_eq_true. by apply Hall.
      * intros n Hn. apply bool_decide_eq_false. by apply Hall.
    + intros n Hn. apply bool_decide_eq_false. intros [Hs _]. apply Hs. by apply Hall.
Qed.
Lemma execute_scripts_parallel_spec_witness :
  execute_scripts_parallel ["s1"; "s2"] {[ "s1"; "s2" ]} {[ "t" ]} = ParallelRun ["s1"; "s2"].
Proof.
  apply (proj2 (execute_scripts_parallel_spec ["s1"; "s2"] {[ "s1"; "s2" ]} {[ "t" ]})).
  - discriminate.
  - intros n Hn. apply elem_of_cons in Hn as [->|Hn];
      [|apply elem_of_cons in Hn as [->|Hn]; [|by apply elem_of_nil in Hn]];
      split; set_solver.
Defined.

End CliExtra.
